(** * The MPC controller node ([mpc_node.cpp]): control loop, callbacks and start-up

    A shallow embedding of [src/ros/src/mpc/src/mpc_node.cpp].

    - A C++ [double] is a real number ([R]): arithmetic is exact, there is
      no rounding, no infinity and no NaN.
    - [int] is a 32-bit and [size_t] a 64-bit machine integer, held in [Z]
      with the wrap-around of every conversion written out.
    - A [std::vector<double>] is a [list R]; [operator[]] out of range and
      the remainder by zero have no defined behaviour in C++ and are the
      error result [None] of the option monad.
    - What [MPC.h] declares (constants, [Lf], [polyfit], [polyeval] and the
      solver) lies outside this file: it is the interface [MPC_h], and
      every definition is parametric in it. *)

From Stdlib Require Import String Ascii.
From Stdlib Require Import Reals Lra Lia ZArith List Bool.
Import ListNotations.

Open Scope R_scope.

(** ** Option monad for vector reads *)

Definition bind {A B : Type} (m : option A) (f : A -> option B) : option B :=
  match m with
  | Some a => f a
  | None => None
  end.

Notation "x <- m ;; k" := (bind m (fun x => k))
  (at level 61, m at next level, right associativity).
Notation "' p <- m ;; k" := (bind m (fun x => let p := x in k))
  (at level 61, p pattern, m at next level, right associativity).

(** ** Machine integers *)

Module MachInt.

Definition size_t_modulus : Z := 2 ^ 64.
Definition int_modulus : Z := 2 ^ 32.

(** Conversion to [size_t]: reduction modulo 2^64. *)
Definition to_size_t (z : Z) : Z := (z mod size_t_modulus)%Z.

(** Conversion to [int]: the two's complement representative. *)
Definition to_int (z : Z) : Z :=
  ((z + 2 ^ 31) mod int_modulus - 2 ^ 31)%Z.

(** [a % b] on [size_t]; the remainder by zero is undefined. *)
Definition urem (a b : Z) : option Z :=
  if (b =? 0)%Z then None else Some (a mod b)%Z.

End MachInt.
Import MachInt.

(** ** Vectors *)

(** [v[k]] for an index already converted to [size_t]. *)
Definition vec_at (v : list R) (k : Z) : option R :=
  if (0 <=? k)%Z && (k <? Z.of_nat (length v))%Z
  then nth_error v (Z.to_nat k)
  else None.

(** ** What [MPC.h] provides *)

Class MPC_h : Type := {
  CENTER_IN_DZIK : R;
  WHEEL_RADIUS_IN_DZIK : R;
  X_DELTA_MIN_VALUE : R;
  NUM_STEPS_BACK : Z;
  STEP_POLY : Z;
  Lf : R;
  polyfit : list R -> list R -> nat -> list R;
  polyeval : list R -> R -> R;
  (** [MPC::Solve(state, coeffs, ref_v)] *)
  Solve : list R -> list R -> R -> list R
}.

(** ** Messages *)

Record Point : Type := mkPoint { px : R; py : R }.

Record Quaternion : Type := mkQuat { qx : R; qy : R; qz : R; qw : R }.

(** The fields of [nav_msgs::Odometry] that the callbacks read. *)
Record Odometry : Type := mkOdom {
  pose_position : Point;
  pose_orientation : Quaternion;
  twist_linear_x : R
}.

Inductive Msg : Type :=
| ServoPosition (data : R)
| MotorSpeed (data : R)
| NextPosMarker (points : list Point)
| ClosestMarker (points : list Point)
| PolyMarker (points : list Point).

(** ** The node *)

Record Params : Type := mkParams {
  steps_ahead : Z;
  dt : R;
  ref_v : R;
  ref_v_alpha : R;
  latency : R;
  cte_coeff : R;
  epsi_coeff : R;
  speed_coeff : R;
  steer_coeff : R;
  consec_steer_coeff : R;
  consec_speed_coeff : R;
  poly_degree : Z;
  num_steps_poly : Z;
  debug : bool
}.

(** [m_poly_degree] and [m_num_steps_poly] are compared with [size_t]
    counters and printed as such: they are unsigned. *)
Record Node : Type := mkNode {
  m_pts_x : list R;
  m_pts_y : list R;
  m_pts_OK : bool;
  m_pos_x : R;
  m_pos_y : R;
  m_pos_OK : bool;
  m_speed : R;
  m_speed_OK : bool;
  m_psi : R;
  m_psi_OK : bool;
  m_steer : R;
  m_rpm : R;
  m_latency : R;
  m_ref_v : R;
  m_ref_v_alpha : R;
  m_poly_degree : nat;
  m_num_steps_poly : nat;
  m_debug : bool;
  m_go_flag : bool
}.

(** The members that the constructor leaves unset keep whatever their
    storage held. *)
Record Indeterminate : Type := mkIndet {
  i_pos_x : R; i_pos_y : R; i_speed : R; i_psi : R; i_latency : R
}.

Section Controller.

Context `{H : MPC_h}.

Definition MPCControllerNode (params : Params) (u : Indeterminate) : Node :=
  {| m_pts_x := []; m_pts_y := [];
     m_pts_OK := false;
     m_pos_x := i_pos_x u; m_pos_y := i_pos_y u;
     m_pos_OK := false;
     m_speed := i_speed u;
     m_speed_OK := false;
     m_psi := i_psi u;
     m_psi_OK := false;
     m_steer := CENTER_IN_DZIK;
     m_rpm := 0;
     m_latency := i_latency u;
     m_ref_v := ref_v params;
     m_ref_v_alpha := ref_v_alpha params;
     m_poly_degree := Z.to_nat (to_size_t (poly_degree params));
     m_num_steps_poly := Z.to_nat (to_size_t (num_steps_poly params));
     m_debug := debug params;
     m_go_flag := false |}.

(** *** Callbacks *)

Definition centerline_cb (data : list Point) (s : Node) : Node :=
  {| m_pts_x := map px data; m_pts_y := map py data;
     m_pts_OK := true;
     m_pos_x := m_pos_x s; m_pos_y := m_pos_y s; m_pos_OK := m_pos_OK s;
     m_speed := m_speed s; m_speed_OK := m_speed_OK s;
     m_psi := m_psi s; m_psi_OK := m_psi_OK s;
     m_steer := m_steer s; m_rpm := m_rpm s; m_latency := m_latency s;
     m_ref_v := m_ref_v s; m_ref_v_alpha := m_ref_v_alpha s;
     m_poly_degree := m_poly_degree s;
     m_num_steps_poly := m_num_steps_poly s;
     m_debug := m_debug s; m_go_flag := m_go_flag s |}.

Definition set_go (b : bool) (s : Node) : Node :=
  {| m_pts_x := m_pts_x s; m_pts_y := m_pts_y s; m_pts_OK := m_pts_OK s;
     m_pos_x := m_pos_x s; m_pos_y := m_pos_y s; m_pos_OK := m_pos_OK s;
     m_speed := m_speed s; m_speed_OK := m_speed_OK s;
     m_psi := m_psi s; m_psi_OK := m_psi_OK s;
     m_steer := m_steer s; m_rpm := m_rpm s; m_latency := m_latency s;
     m_ref_v := m_ref_v s; m_ref_v_alpha := m_ref_v_alpha s;
     m_poly_degree := m_poly_degree s;
     m_num_steps_poly := m_num_steps_poly s;
     m_debug := m_debug s; m_go_flag := b |}.

(** [data] is the payload of a [std_msgs::UInt16]. *)
Definition signal_go_cb (data : Z) (s : Node) : Node :=
  if (data =? 0)%Z then set_go false s
  else if (data =? 2309)%Z then set_go true s
  else s.

Definition odom_cb (data : Odometry) (s : Node) : Node :=
  {| m_pts_x := m_pts_x s; m_pts_y := m_pts_y s; m_pts_OK := m_pts_OK s;
     m_pos_x := m_pos_x s; m_pos_y := m_pos_y s; m_pos_OK := m_pos_OK s;
     m_speed := twist_linear_x data; m_speed_OK := true;
     m_psi := m_psi s; m_psi_OK := m_psi_OK s;
     m_steer := m_steer s; m_rpm := m_rpm s; m_latency := m_latency s;
     m_ref_v := m_ref_v s; m_ref_v_alpha := m_ref_v_alpha s;
     m_poly_degree := m_poly_degree s;
     m_num_steps_poly := m_num_steps_poly s;
     m_debug := m_debug s; m_go_flag := m_go_flag s |}.

(** [atan2] of the C library, over the reals. *)
Definition atan2 (y x : R) : R :=
  if Rlt_dec 0 x then atan (y / x)
  else if Rlt_dec x 0 then
    (if Rle_dec 0 y then atan (y / x) + PI else atan (y / x) - PI)
  else if Rlt_dec 0 y then PI / 2
  else if Rlt_dec y 0 then - (PI / 2)
  else 0.

Definition pf_pose_odom_cb (data : Odometry) (s : Node) : Node :=
  let o := pose_orientation data in
  let siny_cosp := 2 * (qw o * qz o + qx o * qy o) in
  let cosy_cosp := 1 - 2 * (qy o * qy o + qz o * qz o) in
  {| m_pts_x := m_pts_x s; m_pts_y := m_pts_y s; m_pts_OK := m_pts_OK s;
     m_pos_x := px (pose_position data);
     m_pos_y := py (pose_position data);
     m_pos_OK := true;
     m_speed := m_speed s; m_speed_OK := m_speed_OK s;
     m_psi := atan2 siny_cosp cosy_cosp; m_psi_OK := true;
     m_steer := m_steer s; m_rpm := m_rpm s; m_latency := m_latency s;
     m_ref_v := m_ref_v s; m_ref_v_alpha := m_ref_v_alpha s;
     m_poly_degree := m_poly_degree s;
     m_num_steps_poly := m_num_steps_poly s;
     m_debug := m_debug s; m_go_flag := m_go_flag s |}.

(** *** [find_closest] *)

(** The body of the scan, from index [i] on; [closest_idx] is an [int]. *)
Fixpoint find_closest_from (pts_x pts_y : list R) (pos_x pos_y : R)
    (i : nat) (fuel : nat) (closest_idx : Z) (closest_dist : R) : option Z :=
  match fuel with
  | O => Some closest_idx
  | S fuel' =>
      x <- nth_error pts_x i ;;
      y <- nth_error pts_y i ;;
      let diff_x := x - pos_x in
      let diff_y := y - pos_y in
      let dist := diff_x * diff_x + diff_y * diff_y in
      if Rlt_dec dist closest_dist
      then find_closest_from pts_x pts_y pos_x pos_y (S i) fuel'
             (to_int (Z.of_nat i)) dist
      else find_closest_from pts_x pts_y pos_x pos_y (S i) fuel'
             closest_idx closest_dist
  end.

Definition find_closest (pts_x pts_y : list R) (pos_x pos_y : R) : option Z :=
  find_closest_from pts_x pts_y pos_x pos_y 0 (length pts_x) (-1)%Z 1e19.

(** *** The fit window (the first loop of [loop]) *)

(** [int idx = (closest_idx + i*STEP_POLY) % m_pts_x.size()]: the sum and
    the product are taken in [size_t], to which the [int] operands are
    converted; the remainder is unsigned; the result goes back to [int]. *)
Definition window_pos (closest_idx : Z) (i : nat) : Z :=
  to_size_t (to_size_t closest_idx
             + to_size_t (Z.of_nat i * to_size_t STEP_POLY)).

Definition window_idx (closest_idx : Z) (size : nat) (i : nat) : option Z :=
  r <- urem (window_pos closest_idx i) (Z.of_nat size) ;;
  Some (to_int r).

Fixpoint closest_pts_from (pts_x pts_y : list R) (closest_idx : Z)
    (i fuel : nat) : option (list R * list R) :=
  match fuel with
  | O => Some ([], [])
  | S fuel' =>
      idx <- window_idx closest_idx (length pts_x) i ;;
      x <- vec_at pts_x (to_size_t idx) ;;
      y <- vec_at pts_y (to_size_t idx) ;;
      ' (xs, ys) <- closest_pts_from pts_x pts_y closest_idx (S i) fuel' ;;
      Some (x :: xs, y :: ys)
  end.

(** [closest_idx] is the value after [closest_idx -= NUM_STEPS_BACK]. *)
Definition closest_pts (pts_x pts_y : list R) (closest_idx : Z)
    (num_steps_poly : nat) : option (list R * list R) :=
  closest_pts_from pts_x pts_y closest_idx 0 num_steps_poly.

(** *** Car frame and the repair of the x spacing (the second loop) *)

(** The inner loop: [sub_i] runs from 1 while [sub_i < num_steps_remaining]. *)
Definition fake_waypoints (last delta : R) (num_steps_remaining : nat) : list R :=
  map (fun sub_i => last + INR sub_i * delta) (seq 1 (num_steps_remaining - 1)).

Definition x_rot (pos_x_lat pos_y_lat sin_psi_lat cos_psi_lat : R) (X Y : R) : R :=
  let dx := X - pos_x_lat in
  let dy := Y - pos_y_lat in
  dx * cos_psi_lat + dy * sin_psi_lat.

Definition y_rot (pos_x_lat pos_y_lat sin_psi_lat cos_psi_lat : R) (X Y : R) : R :=
  let dx := X - pos_x_lat in
  let dy := Y - pos_y_lat in
  - dx * sin_psi_lat + dy * cos_psi_lat.

(** Iteration [i] of the loop and the ones after it; the result is
    [(xvals_vec, yvals_vec, fraction_steps_OK)] at the loop's exit. Inside
    the loop [i < num_steps_poly], so [num_steps_poly - i + 1] does not
    wrap; [i - 1] and [i - 2] are [size_t] differences and may. *)
Fixpoint car_frame_from (closest_pts_x closest_pts_y : list R)
    (pos_x_lat pos_y_lat sin_psi_lat cos_psi_lat : R)
    (poly_degree num_steps_poly : nat) (i fuel : nat)
    (xvals_vec yvals_vec : list R) (fraction_steps_OK : R)
    : option (list R * list R * R) :=
  match fuel with
  | O => Some (xvals_vec, yvals_vec, fraction_steps_OK)
  | S fuel' =>
      X <- nth_error closest_pts_x i ;;
      Y <- nth_error closest_pts_y i ;;
      let xr := x_rot pos_x_lat pos_y_lat sin_psi_lat cos_psi_lat X Y in
      let yr := y_rot pos_x_lat pos_y_lat sin_psi_lat cos_psi_lat X Y in
      let continue :=
        car_frame_from closest_pts_x closest_pts_y
          pos_x_lat pos_y_lat sin_psi_lat cos_psi_lat
          poly_degree num_steps_poly (S i) fuel'
          (xvals_vec ++ [xr]) (yvals_vec ++ [yr]) fraction_steps_OK in
      if (poly_degree <? i)%nat then
        x1 <- vec_at xvals_vec (to_size_t (Z.of_nat i - 1)) ;;
        if Rlt_dec (xr - x1) X_DELTA_MIN_VALUE then
          let num_steps_remaining := (num_steps_poly - i + 1)%nat in
          let fraction := 1 * INR (i + 1) / INR num_steps_poly in
          x2 <- vec_at xvals_vec (to_size_t (Z.of_nat i - 2)) ;;
          y1 <- vec_at yvals_vec (to_size_t (Z.of_nat i - 1)) ;;
          y2 <- vec_at yvals_vec (to_size_t (Z.of_nat i - 2)) ;;
          let delta_x := (x1 - x2) / INR num_steps_remaining in
          let delta_y := (y1 - y2) / INR num_steps_remaining in
          Some (xvals_vec ++ fake_waypoints x1 delta_x num_steps_remaining,
                yvals_vec ++ fake_waypoints y1 delta_y num_steps_remaining,
                fraction)
        else continue
      else continue
  end.

Definition car_frame (closest_pts_x closest_pts_y : list R)
    (pos_x_lat pos_y_lat sin_psi_lat cos_psi_lat : R)
    (poly_degree num_steps_poly : nat) : option (list R * list R * R) :=
  car_frame_from closest_pts_x closest_pts_y
    pos_x_lat pos_y_lat sin_psi_lat cos_psi_lat
    poly_degree num_steps_poly 0 num_steps_poly [] [] 1.

(** *** Reference velocity *)

Definition new_ref_v (s : Node) (fraction_steps_OK : R) : R :=
  m_ref_v_alpha s * m_ref_v s
  + (1 - m_ref_v_alpha s) * (fraction_steps_OK * m_ref_v s).

(** The copy into the Eigen vectors reads [v[0] .. v[n-1]]. *)
Definition copy_n (n : nat) (v : list R) : option (list R) :=
  if (n <=? length v)%nat then Some (firstn n v) else None.

(** *** Actuator mapping *)

Definition steer_in_dzik (steering_angle_in_radians : R) : R :=
  let steer := CENTER_IN_DZIK - steering_angle_in_radians in
  if Rlt_dec steer 0 then 0
  else if Rlt_dec 1 steer then 1
  else steer.

Definition rpm_in_dzik (speed_in_meters_by_second : R) : R :=
  speed_in_meters_by_second / 2 / PI / WHEEL_RADIUS_IN_DZIK * 60 * 10.

(** *** [get_marker] *)

(** The loop of [get_marker], from an even position [i] on: it reads
    [vars[i]] and [vars[i+1]]. *)
Fixpoint marker_points (vars : list R)
    (pos_x_lat pos_y_lat sin_psi_lat cos_psi_lat : R) : option (list Point) :=
  match vars with
  | [] => Some []
  | x :: y :: rest =>
      let xr := x * cos_psi_lat - y * sin_psi_lat in
      let yr := x * sin_psi_lat + y * cos_psi_lat in
      ps <- marker_points rest pos_x_lat pos_y_lat sin_psi_lat cos_psi_lat ;;
      Some (mkPoint (xr + pos_x_lat) (yr + pos_y_lat) :: ps)
  | [_] => None
  end.

(** The first two values are skipped. With fewer than two values the
    reserved size [(vars.size() - 2) / 2] wraps and the call does not
    return. *)
Definition get_marker (vars : list R)
    (pos_x_lat pos_y_lat sin_psi_lat cos_psi_lat : R) : option (list Point) :=
  match vars with
  | _ :: _ :: rest =>
      marker_points rest pos_x_lat pos_y_lat sin_psi_lat cos_psi_lat
  | _ => None
  end.

Fixpoint interleave (xs ys : list R) : list R :=
  match xs, ys with
  | x :: xs', y :: ys' => x :: y :: interleave xs' ys'
  | _, _ => []
  end.

(** [for (double x=0; x < 2.1; x+=0.2)], at most [fuel] rounds. *)
Fixpoint poly_samples (coeffs : list R) (x : R) (fuel : nat) : list R :=
  match fuel with
  | O => []
  | S fuel' =>
      if Rlt_dec x 2.1
      then x :: polyeval coeffs x :: poly_samples coeffs (x + 0.2) fuel'
      else []
  end.

(** *** One round of [loop], up to [ros::spinOnce] *)

Definition psi_lat (s : Node) : R :=
  let v_lat := m_speed s in
  m_psi s - m_latency s * (v_lat * m_steer s / Lf).

Definition pos_x_lat (s : Node) : R :=
  let v_lat := m_speed s in
  m_pos_x s + m_latency s * (v_lat * cos (psi_lat s)).

Definition pos_y_lat (s : Node) : R :=
  let v_lat := m_speed s in
  m_pos_y s + m_latency s * (v_lat * sin (psi_lat s)).

Definition set_actuators (steer rpm : R) (s : Node) : Node :=
  {| m_pts_x := m_pts_x s; m_pts_y := m_pts_y s; m_pts_OK := m_pts_OK s;
     m_pos_x := m_pos_x s; m_pos_y := m_pos_y s; m_pos_OK := m_pos_OK s;
     m_speed := m_speed s; m_speed_OK := m_speed_OK s;
     m_psi := m_psi s; m_psi_OK := m_psi_OK s;
     m_steer := steer; m_rpm := rpm; m_latency := m_latency s;
     m_ref_v := m_ref_v s; m_ref_v_alpha := m_ref_v_alpha s;
     m_poly_degree := m_poly_degree s;
     m_num_steps_poly := m_num_steps_poly s;
     m_debug := m_debug s; m_go_flag := m_go_flag s |}.

Definition ready (s : Node) : bool :=
  m_pts_OK s && m_speed_OK s && m_pos_OK s && m_psi_OK s.

(** The window of the round: [find_closest], the shift back, the loop. *)
Definition tick_window (s : Node) : option (list R * list R) :=
  closest_idx <- find_closest (m_pts_x s) (m_pts_y s)
                   (pos_x_lat s) (pos_y_lat s) ;;
  let closest_idx := to_int (closest_idx - NUM_STEPS_BACK) in
  closest_pts (m_pts_x s) (m_pts_y s) closest_idx (m_num_steps_poly s).

(** What is handed to [polyfit] and to the solver. *)
Record Fit : Type := mkFit {
  f_xvals : list R;
  f_yvals : list R;
  f_fraction_steps_OK : R;
  f_coeffs : list R
}.

Definition tick_fit (s : Node) : option Fit :=
  ' (closest_pts_x, closest_pts_y) <- tick_window s ;;
  ' (xvals_vec, yvals_vec, fraction_steps_OK) <-
      car_frame closest_pts_x closest_pts_y
        (pos_x_lat s) (pos_y_lat s) (sin (psi_lat s)) (cos (psi_lat s))
        (m_poly_degree s) (m_num_steps_poly s) ;;
  xvals <- copy_n (m_num_steps_poly s) xvals_vec ;;
  yvals <- copy_n (m_num_steps_poly s) yvals_vec ;;
  let coeffs := polyfit xvals yvals (m_poly_degree s) in
  (* the coefficients coeffs[0..poly_degree] are written to the log *)
  if (m_poly_degree s <? length coeffs)%nat
  then Some (mkFit xvals_vec yvals_vec fraction_steps_OK coeffs)
  else None.

Definition debug_markers (s : Node) (f : Fit) (vars : list R)
    : option (list Msg) :=
  let sn := sin (psi_lat s) in
  let cs := cos (psi_lat s) in
  next_pos_marker <- get_marker vars (pos_x_lat s) (pos_y_lat s) sn cs ;;
  xs <- copy_n (m_num_steps_poly s) (f_xvals f) ;;
  ys <- copy_n (m_num_steps_poly s) (f_yvals f) ;;
  closest_marker <- get_marker (interleave xs ys)
                      (pos_x_lat s) (pos_y_lat s) sn cs ;;
  poly_marker <- get_marker (0 :: 0 :: poly_samples (f_coeffs f) 0 12)
                   (pos_x_lat s) (pos_y_lat s) sn cs ;;
  Some [NextPosMarker next_pos_marker;
        ClosestMarker closest_marker;
        PolyMarker poly_marker].

(** The errors, the solver's state vector and the call of the solver. *)
Definition tick_solve (s : Node) (f : Fit) : option (list R) :=
  let coeffs := f_coeffs f in
  let cte := polyeval coeffs 0 in
  c1 <- nth_error coeffs 1 ;;
  let epsi := - atan c1 in
  Some (Solve [0; 0; 0; cte; epsi] coeffs
          (new_ref_v s (f_fraction_steps_OK f))).

(** The body of the [while] of [loop]: the node afterwards and the
    messages published, in order. *)
Definition tick (s : Node) : option (Node * list Msg) :=
  if ready s then
    f <- tick_fit s ;;
    vars <- tick_solve s f ;;
    steering_angle_in_radians <- nth_error vars 0 ;;
    speed_in_meters_by_second <- nth_error vars 1 ;;
    let steer := steer_in_dzik steering_angle_in_radians in
    let rpm := rpm_in_dzik speed_in_meters_by_second in
    let steer := if negb (m_go_flag s) then CENTER_IN_DZIK else steer in
    let rpm := if negb (m_go_flag s) then 0 else rpm in
    let s' := set_actuators steer rpm s in
    markers <- (if m_debug s then debug_markers s f vars else Some []) ;;
    Some (s', ServoPosition steer :: MotorSpeed rpm :: markers)
  else
    Some (s, []).

(** The two commands of a round whose solver answered [delta] and
    [speed]. *)
Definition steer_cmd (s : Node) (delta : R) : R :=
  if negb (m_go_flag s) then CENTER_IN_DZIK else steer_in_dzik delta.

Definition rpm_cmd (s : Node) (speed : R) : R :=
  if negb (m_go_flag s) then 0 else rpm_in_dzik speed.

(** *** [ros::spinOnce] and the loop *)

Inductive Event : Type :=
| EvCenterline (data : list Point)
| EvOdom (data : Odometry)
| EvPose (data : Odometry)
| EvSignalGo (data : Z).

Definition dispatch (s : Node) (e : Event) : Node :=
  match e with
  | EvCenterline d => centerline_cb d s
  | EvOdom d => odom_cb d s
  | EvPose d => pf_pose_odom_cb d s
  | EvSignalGo d => signal_go_cb d s
  end.

Definition spinOnce (pending : list Event) (s : Node) : Node :=
  fold_left dispatch pending s.

(** [loop] over the rounds for which the node handle is ok; round [k]
    ends by handling [arrivals[k]]. The result lists what each round
    published. *)
Fixpoint loop (arrivals : list (list Event)) (s : Node)
    : option (Node * list (list Msg)) :=
  match arrivals with
  | [] => Some (s, [])
  | pending :: later =>
      ' (s1, out) <- tick s ;;
      ' (s2, outs) <- loop later (spinOnce pending s1) ;;
      Some (s2, out :: outs)
  end.

(** The actuator commands among the messages of a round. *)
Definition is_command (m : Msg) : bool :=
  match m with
  | ServoPosition _ | MotorSpeed _ => true
  | _ => false
  end.

Definition commands (out : list Msg) : list Msg := filter is_command out.

(** *** When a round runs to its end *)

(** The centre line is not empty, has as many ordinates as abscissas and
    its length fits an [int]. *)
Definition centerline_ok (s : Node) : Prop :=
  m_pts_x s <> []
  /\ length (m_pts_x s) = length (m_pts_y s)
  /\ (Z.of_nat (length (m_pts_x s)) < 2 ^ 31)%Z.

(** The degree is at least one, the number of points is a [size_t], and
    there is a point to show when the markers are asked for. *)
Definition settings_ok (s : Node) : Prop :=
  (1 <= m_poly_degree s)%nat
  /\ (Z.of_nat (m_num_steps_poly s) < 2 ^ 64)%Z
  /\ (m_debug s = true -> (1 <= m_num_steps_poly s)%nat).

(** [polyfit] returns a coefficient for every power up to the degree; the
    solver returns the two actuator values, followed by whole points when
    the markers are asked for. *)
Definition library_ok (s : Node) : Prop :=
  (forall xs ys,
      (m_poly_degree s < length (polyfit xs ys (m_poly_degree s)))%nat)
  /\ (forall state coeffs v, exists delta speed rest,
        Solve state coeffs v = delta :: speed :: rest
        /\ (m_debug s = true -> Nat.Even (length rest))).

Definition runs_through (s : Node) : Prop :=
  centerline_ok s /\ settings_ok s /\ library_ok s.

End Controller.

(** ** Start-up ([main]) *)

Inductive Startup : Type :=
| Exit (code : Z)
| Run (params : Params).

Section Main.

(** [atoi] and [atof] of the C library. *)
Variable atoi : string -> Z.
Variable atof : string -> R.

Definition num_expected_args : nat := 15.

(** [main] up to the construction of the node: [Exit c] is [return c],
    [Run params] goes on to build the node from [params] and to enter
    [loop]. [argv] is the argument vector after [ros::init], [argc] its
    length. *)
Definition main (argv : list string) : Startup :=
  match argv with
  | [_; a1; a2; a3; a4; a5; a6; a7; a8; a9; a10; a11; a12; a13; a14] =>
      (* argc == num_expected_args *)
      let alpha := atof a4 in
      if Rlt_dec 1 alpha then Exit 1
      else if Rlt_dec alpha 0 then Exit 1
      else
        let mk := mkParams (atoi a1) (atof a2) (atof a3) alpha (atof a5)
                    (atof a6) (atof a7) (atof a8) (atof a9)
                    (atof a10) (atof a11) (atoi a12) (atoi a13) in
        if String.eqb a14 "true" then Run (mk true)
        else if String.eqb a14 "false" then Run (mk false)
        else Exit 1
  | _ =>
      if (num_expected_args <? length argv)%nat
      then Exit 1   (* too many arguments *)
      else Exit 1   (* too few arguments *)
  end.

End Main.

(** ** The statements of the specification, in its own words *)

Module Spec.

(** The window of section 4.3: [num_steps_poly] points from
    [(idx - NUM_STEPS_BACK) mod N] on, every [STEP_POLY]-th, cyclically;
    [mod] is the mathematical remainder. *)
Definition window `{MPC_h} (pts : list R) (idx : Z) (num_steps_poly : nat)
    : list R :=
  map (fun i =>
         nth (Z.to_nat ((idx - NUM_STEPS_BACK + Z.of_nat i * STEP_POLY)
                        mod Z.of_nat (length pts))) pts 0)
      (seq 0 num_steps_poly).

(** Invariant 4 of section 8 on the sequence given to [polyfit]. *)
Definition x_spacing_ok `{MPC_h} (poly_degree : nat) (x_c : list R) : Prop :=
  forall i, (0 < i < length x_c)%nat ->
    nth i x_c 0 - nth (i - 1) x_c 0 >= X_DELTA_MIN_VALUE
    \/ (i <= poly_degree)%nat.

(** The table of section 6. *)
Definition config_ok (p : Params) : Prop :=
  (2 <= steps_ahead p)%Z /\ 0 < dt p /\ 0 < ref_v p
  /\ 0 <= ref_v_alpha p <= 1 /\ 0 <= latency p
  /\ 0 <= cte_coeff p /\ 0 <= epsi_coeff p /\ 0 <= speed_coeff p
  /\ 0 <= steer_coeff p /\ 0 <= consec_steer_coeff p
  /\ 0 <= consec_speed_coeff p
  /\ (1 <= poly_degree p <= num_steps_poly p - 1)%Z
  /\ (poly_degree p + 2 <= num_steps_poly p)%Z.

End Spec.

(** ** A platform and a node to evaluate on *)

Module Sample.

(** Modelled from the spec: [polyeval], which [MPC.h] declares, as the
    Horner evaluation of section 4.1. *)
Definition horner (coeffs : list R) (x : R) : R :=
  fold_right (fun c acc => c + x * acc) 0 coeffs.

(** A platform whose solver answers [(delta, speed)] whatever it is
    given, and whose fit is the zero polynomial of the degree asked for;
    no statement below depends on what these two compute. *)
Definition platform (delta speed : R) : MPC_h :=
  {| CENTER_IN_DZIK := 0.5;
     WHEEL_RADIUS_IN_DZIK := 0.05;
     X_DELTA_MIN_VALUE := 0.1;
     NUM_STEPS_BACK := 1;
     STEP_POLY := 1;
     Lf := 0.25;
     polyfit := fun _ _ d => repeat 0 (S d);
     polyeval := horner;
     Solve := fun _ _ _ => [delta; speed] |}.

(** A closed track of five points, the car on the first of them. *)
Definition node (latency : R) (ok go : bool) : Node :=
  {| m_pts_x := [0; 1; 2; 1; 0];
     m_pts_y := [0; 0; 1; 2; 1];
     m_pts_OK := ok;
     m_pos_x := 0; m_pos_y := 0; m_pos_OK := ok;
     m_speed := 1; m_speed_OK := ok;
     m_psi := 0; m_psi_OK := ok;
     m_steer := 0.5; m_rpm := 0;
     m_latency := latency;
     m_ref_v := 2; m_ref_v_alpha := 0.5;
     m_poly_degree := 1; m_num_steps_poly := 3;
     m_debug := false; m_go_flag := go |}.

(** [atoi] on an optional minus sign followed by decimal digits. *)
Definition digit_of (c : ascii) : option Z :=
  let n := (Z.of_nat (nat_of_ascii c) - 48)%Z in
  if (0 <=? n)%Z && (n <=? 9)%Z then Some n else None.

Fixpoint digits (s : string) (acc : Z) (count : nat) : Z * nat * string :=
  match s with
  | EmptyString => (acc, count, s)
  | String c rest =>
      match digit_of c with
      | Some d => digits rest (10 * acc + d)%Z (S count)
      | None => (acc, count, s)
      end
  end.

Definition unsigned_part (s : string) : string * bool :=
  match s with
  | String "-"%char rest => (rest, true)
  | _ => (s, false)
  end.

Definition atoi (s : string) : Z :=
  let '(body, neg) := unsigned_part s in
  let '(n, _, _) := digits body 0%Z 0%nat in
  to_int (if neg then - n else n).

(** The sign, the digits read as one integer and the number of digits
    after the point, of an optional minus sign, decimal digits and an
    optional fraction. *)
Definition decimal (s : string) : bool * Z * nat :=
  let '(body, neg) := unsigned_part s in
  let '(n, _, rest) := digits body 0%Z 0%nat in
  match rest with
  | String "."%char frac =>
      let '(m, k, _) := digits frac n 0%nat in (neg, m, k)
  | _ => (neg, n, 0%nat)
  end.

(** [atof] on such a literal. *)
Definition atof (s : string) : R :=
  let '(neg, m, k) := decimal s in
  let v := IZR m / IZR (10 ^ Z.of_nat k) in
  if neg then - v else v.

Definition argv : list string :=
  ["mpc_node"; "0"; "-1"; "0"; "0.5"; "-1"; "-1"; "-1"; "-1"; "-1";
   "-1"; "-1"; "0"; "0"; "true"]%string.

End Sample.
Lemma to_size_t_range z : (0 <= to_size_t z < 2 ^ 64)%Z.
Proof. unfold to_size_t, size_t_modulus. apply Z.mod_pos_bound. lia. Qed.

Lemma to_size_t_small z : (0 <= z < 2 ^ 64)%Z -> to_size_t z = z.
Proof. intros H. unfold to_size_t, size_t_modulus. apply Z.mod_small. exact H. Qed.

Lemma to_size_t_neg z : (- 2 ^ 64 <= z < 0)%Z -> to_size_t z = (z + 2 ^ 64)%Z.
Proof.
  intros H. unfold to_size_t, size_t_modulus.
  symmetry. apply Z.mod_unique with (q := (-1)%Z); lia.
Qed.

Lemma to_int_small z : (- 2 ^ 31 <= z < 2 ^ 31)%Z -> to_int z = z.
Proof.
  intros H. unfold to_int, int_modulus.
  rewrite Z.mod_small; lia.
Qed.

Lemma to_int_range z : (- 2 ^ 31 <= to_int z < 2 ^ 31)%Z.
Proof.
  unfold to_int, int_modulus.
  pose proof (Z.mod_pos_bound (z + 2 ^ 31) (2 ^ 32)) as H. lia.
Qed.

Lemma vec_at_nat (v : list R) (i : nat) :
  vec_at v (Z.of_nat i) = nth_error v i.
Proof.
  unfold vec_at. rewrite Nat2Z.id.
  destruct (Z.leb_spec 0 (Z.of_nat i)); [|lia]. simpl.
  destruct (Z.ltb_spec (Z.of_nat i) (Z.of_nat (length v))); [reflexivity|].
  symmetry. apply nth_error_None. lia.
Qed.

Lemma vec_at_Some (v : list R) (k : Z) :
  (0 <= k < Z.of_nat (length v))%Z -> exists r, vec_at v k = Some r.
Proof.
  intros H. unfold vec_at.
  destruct (Z.leb_spec 0 k); [|lia].
  destruct (Z.ltb_spec k (Z.of_nat (length v))); [|lia]. simpl.
  destruct (nth_error v (Z.to_nat k)) eqn:E; [eauto|].
  apply nth_error_None in E. lia.
Qed.

(** ** Frame changes *)

Section Frames.

Context `{MPC_h}.

Lemma rot_back_x (x_p y_p sn cs X Y : R) :
  sn * sn + cs * cs = 1 ->
  x_rot x_p y_p sn cs X Y * cs - y_rot x_p y_p sn cs X Y * sn + x_p = X.
Proof.
  intros Hunit. unfold x_rot, y_rot.
  transitivity ((X - x_p) * (sn * sn + cs * cs) + x_p); [ring|].
  rewrite Hunit. ring.
Qed.

Lemma rot_back_y (x_p y_p sn cs X Y : R) :
  sn * sn + cs * cs = 1 ->
  x_rot x_p y_p sn cs X Y * sn + y_rot x_p y_p sn cs X Y * cs + y_p = Y.
Proof.
  intros Hunit. unfold x_rot, y_rot.
  transitivity ((Y - y_p) * (sn * sn + cs * cs) + y_p); [ring|].
  rewrite Hunit. ring.
Qed.

Lemma rot_keeps_distance (x_p y_p sn cs X1 Y1 X2 Y2 : R) :
  sn * sn + cs * cs = 1 ->
  (x_rot x_p y_p sn cs X1 Y1 - x_rot x_p y_p sn cs X2 Y2)
  * (x_rot x_p y_p sn cs X1 Y1 - x_rot x_p y_p sn cs X2 Y2)
  + (y_rot x_p y_p sn cs X1 Y1 - y_rot x_p y_p sn cs X2 Y2)
    * (y_rot x_p y_p sn cs X1 Y1 - y_rot x_p y_p sn cs X2 Y2)
  = (X1 - X2) * (X1 - X2) + (Y1 - Y2) * (Y1 - Y2).
Proof.
  intros Hunit. unfold x_rot, y_rot.
  transitivity (((X1 - X2) * (X1 - X2) + (Y1 - Y2) * (Y1 - Y2))
                * (sn * sn + cs * cs)); [ring|].
  rewrite Hunit. ring.
Qed.

Lemma marker_points_interleave (pts : list Point) (x_p y_p sn cs : R) :
  sn * sn + cs * cs = 1 ->
  marker_points
    (interleave (map (fun p => x_rot x_p y_p sn cs (px p) (py p)) pts)
                (map (fun p => y_rot x_p y_p sn cs (px p) (py p)) pts))
    x_p y_p sn cs = Some pts.
Proof.
  intros Hunit. induction pts as [|[X Y] pts IH]; simpl; [reflexivity|].
  rewrite IH. simpl.
  rewrite rot_back_x, rot_back_y by exact Hunit. reflexivity.
Qed.

(** C9. The change to the car frame used in [loop] (subtract the
    projected position, rotate by minus the projected heading) is undone
    by the change back made in [get_marker]: a point comes back as it
    was, a list of car-frame points handed to [get_marker] after the two
    leading values yields the map-frame points, and distances between
    points are the same in both frames. *)
Theorem C9_frame_roundtrip (x_p y_p psi_p : R) :
  (forall X Y,
      let xc := x_rot x_p y_p (sin psi_p) (cos psi_p) X Y in
      let yc := y_rot x_p y_p (sin psi_p) (cos psi_p) X Y in
      xc * cos psi_p - yc * sin psi_p + x_p = X
      /\ xc * sin psi_p + yc * cos psi_p + y_p = Y)
  /\ (forall (a b : R) (pts : list Point),
      get_marker
        (a :: b ::
         interleave
           (map (fun p => x_rot x_p y_p (sin psi_p) (cos psi_p) (px p) (py p)) pts)
           (map (fun p => y_rot x_p y_p (sin psi_p) (cos psi_p) (px p) (py p)) pts))
        x_p y_p (sin psi_p) (cos psi_p) = Some pts)
  /\ (forall X1 Y1 X2 Y2,
      let dxc := x_rot x_p y_p (sin psi_p) (cos psi_p) X1 Y1
                 - x_rot x_p y_p (sin psi_p) (cos psi_p) X2 Y2 in
      let dyc := y_rot x_p y_p (sin psi_p) (cos psi_p) X1 Y1
                 - y_rot x_p y_p (sin psi_p) (cos psi_p) X2 Y2 in
      dxc * dxc + dyc * dyc = (X1 - X2) * (X1 - X2) + (Y1 - Y2) * (Y1 - Y2)).
Proof.
  pose proof (sin2_cos2 psi_p) as Hunit. unfold Rsqr in Hunit.
  split; [|split].
  - intros X Y. simpl. split.
    + apply rot_back_x. exact Hunit.
    + apply rot_back_y. exact Hunit.
  - intros a b pts. simpl. apply marker_points_interleave. exact Hunit.
  - intros X1 Y1 X2 Y2. simpl. apply rot_keeps_distance. exact Hunit.
Qed.

End Frames.

(** ** Reference velocity *)

(** The weighted mean of [ref_v] and [fraction * ref_v] is at most
    [ref_v] when the fraction is below one. *)
Lemma new_ref_v_le (s : Node) (fraction_steps_OK : R) :
  0 <= m_ref_v_alpha s <= 1 ->
  0 < m_ref_v s ->
  fraction_steps_OK < 1 ->
  new_ref_v s fraction_steps_OK <= m_ref_v s.
Proof.
  intros Ha Hv Hf. unfold new_ref_v.
  assert (Hp : 0 <= (1 - m_ref_v_alpha s)
                    * (m_ref_v s * (1 - fraction_steps_OK))).
  { apply Rmult_le_pos; [lra|]. apply Rmult_le_pos; lra. }
  lra.
Qed.

(** ** The car frame loop *)

Section CarFrame.

Context `{MPC_h}.

Lemma vec_at_back (v : list R) (i k : nat) :
  (k <= i)%nat -> (Z.of_nat i < 2 ^ 64)%Z -> (i - k < length v)%nat ->
  vec_at v (to_size_t (Z.of_nat i - Z.of_nat k)) = Some (nth (i - k) v 0).
Proof.
  intros Hk Hi Hlen.
  rewrite to_size_t_small by lia.
  replace (Z.of_nat i - Z.of_nat k)%Z with (Z.of_nat (i - k)) by lia.
  rewrite vec_at_nat. apply nth_error_nth'. exact Hlen.
Qed.

Lemma fake_waypoints_length (last delta : R) (n : nat) :
  length (fake_waypoints last delta n) = (n - 1)%nat.
Proof. unfold fake_waypoints. rewrite length_map, length_seq. reflexivity. Qed.

Lemma fake_waypoints_nth (last delta : R) (n k : nat) :
  (k < n - 1)%nat ->
  nth k (fake_waypoints last delta n) 0 = last + INR (S k) * delta.
Proof.
  intros Hk. unfold fake_waypoints.
  set (f := fun sub_i : nat => last + INR sub_i * delta).
  transitivity (nth k (map f (seq 1 (n - 1))) (f 0%nat)).
  - apply nth_indep. rewrite length_map, length_seq. exact Hk.
  - rewrite (map_nth f). rewrite seq_nth by exact Hk. reflexivity.
Qed.

(** Successive fake waypoints, the first of them counted from the last
    accepted point, are [delta] apart. *)
Lemma fake_waypoints_step (v : list R) (last delta : R) (n k : nat) :
  (0 < length v)%nat -> nth (length v - 1) v 0 = last ->
  (length v <= k < length v + (n - 1))%nat ->
  nth k (v ++ fake_waypoints last delta n) 0
  - nth (k - 1) (v ++ fake_waypoints last delta n) 0 = delta.
Proof.
  intros Hpos Hlast Hk.
  rewrite (app_nth2 v) by lia.
  rewrite fake_waypoints_nth by lia.
  destruct (Nat.eq_dec k (length v)) as [->|Hne].
  - rewrite app_nth1 by lia. rewrite Hlast.
    rewrite Nat.sub_diag. simpl. lra.
  - rewrite (app_nth2 v) by lia.
    rewrite fake_waypoints_nth by lia.
    replace (S (k - 1 - length v)) with (k - length v)%nat by lia.
    rewrite S_INR. lra.
Qed.

Variables closest_pts_x closest_pts_y : list R.
Variables x_p y_p sn cs : R.
Variables poly_degree num_steps_poly : nat.

Hypothesis degree_pos : (1 <= poly_degree)%nat.
Hypothesis num_size_t : (Z.of_nat num_steps_poly < 2 ^ 64)%Z.
Hypothesis length_x : length closest_pts_x = num_steps_poly.
Hypothesis length_y : length closest_pts_y = num_steps_poly.

(** The car-frame abscissa of the [k]-th window point. *)
Let xc (k : nat) : R :=
  x_rot x_p y_p sn cs (nth k closest_pts_x 0) (nth k closest_pts_y 0).

(** What the loop ensures on its result, [b] being the round at which it
    broke off ([num_steps_poly] if it did not). *)
Let outcome (b : nat) (xv yv : list R) (fraction : R) : Prop :=
  length xv = num_steps_poly /\ length yv = num_steps_poly
  /\ (forall k, (k < b)%nat -> nth k xv 0 = xc k)
  /\ (forall k, (0 < k < b)%nat ->
        (k <= poly_degree)%nat
        \/ nth k xv 0 - nth (k - 1) xv 0 >= X_DELTA_MIN_VALUE)
  /\ (forall k, (b <= k < num_steps_poly)%nat ->
        nth k xv 0 - nth (k - 1) xv 0
        = (nth (b - 1) xv 0 - nth (b - 2) xv 0)
          / INR (num_steps_poly - b + 1))
  /\ ((b < num_steps_poly)%nat ->
        (poly_degree < b)%nat
        /\ xc b - nth (b - 1) xv 0 < X_DELTA_MIN_VALUE
        /\ fraction = 1 * INR (b + 1) / INR num_steps_poly)
  /\ (b = num_steps_poly -> fraction = 1).

Lemma car_frame_from_outcome (fuel : nat) :
  forall (i : nat) (xv yv : list R),
    (i + fuel = num_steps_poly)%nat ->
    length xv = i -> length yv = i ->
    (forall k, (k < i)%nat -> nth k xv 0 = xc k) ->
    (forall k, (0 < k < i)%nat ->
       (k <= poly_degree)%nat
       \/ nth k xv 0 - nth (k - 1) xv 0 >= X_DELTA_MIN_VALUE) ->
    exists b xv' yv' fraction,
      car_frame_from closest_pts_x closest_pts_y x_p y_p sn cs
        poly_degree num_steps_poly i fuel xv yv 1
      = Some (xv', yv', fraction)
      /\ (i <= b <= num_steps_poly)%nat
      /\ outcome b xv' yv' fraction.
Proof.
  induction fuel as [|fuel IH]; intros i xv yv Hi Hxv Hyv Hacc Hsp.
  - exists i, xv, yv, 1. simpl. split; [reflexivity|]. split; [lia|].
    unfold outcome. repeat split; try lia; auto.
  - cbn [car_frame_from].
    rewrite (nth_error_nth' closest_pts_x 0) by lia.
    rewrite (nth_error_nth' closest_pts_y 0) by lia.
    cbn [bind]. fold (xc i).
    set (yr := y_rot x_p y_p sn cs (nth i closest_pts_x 0)
                 (nth i closest_pts_y 0)).
    assert (Hcont :
      ((i <= poly_degree)%nat
       \/ xc i - nth (i - 1) xv 0 >= X_DELTA_MIN_VALUE) ->
      exists b xv' yv' fraction,
        car_frame_from closest_pts_x closest_pts_y x_p y_p sn cs
          poly_degree num_steps_poly (S i) fuel
          (xv ++ [xc i]) (yv ++ [yr]) 1
        = Some (xv', yv', fraction)
        /\ (i <= b <= num_steps_poly)%nat
        /\ outcome b xv' yv' fraction).
    { intros Hstep.
      destruct (IH (S i) (xv ++ [xc i]) (yv ++ [yr])) as
          (b & xv' & yv' & fr & E & Hb & Hout).
      - lia.
      - rewrite length_app. simpl. lia.
      - rewrite length_app. simpl. lia.
      - intros k Hk. destruct (Nat.eq_dec k i) as [->|Hne].
        + rewrite app_nth2 by lia. rewrite Hxv, Nat.sub_diag. reflexivity.
        + rewrite app_nth1 by lia. apply Hacc. lia.
      - intros k Hk. destruct (Nat.eq_dec k i) as [->|Hne].
        + rewrite (app_nth2 xv) by lia. rewrite Hxv, Nat.sub_diag.
          rewrite app_nth1 by lia. exact Hstep.
        + rewrite !app_nth1 by lia. apply Hsp. lia.
      - exists b, xv', yv', fr. split; [exact E|]. split; [lia|exact Hout]. }
    destruct (Nat.ltb_spec poly_degree i) as [Hdeg|Hdeg].
    + change (Z.of_nat i - 1)%Z with (Z.of_nat i - Z.of_nat 1)%Z.
      change (Z.of_nat i - 2)%Z with (Z.of_nat i - Z.of_nat 2)%Z.
      rewrite !vec_at_back by lia. cbn [bind].
      destruct (Rlt_dec (xc i - nth (i - 1) xv 0) X_DELTA_MIN_VALUE)
        as [Hlow|Hok].
      * exists i. eexists. eexists. eexists.
        split; [reflexivity|]. split; [lia|].
        unfold outcome.
        split; [rewrite length_app, fake_waypoints_length; lia|].
        split; [rewrite length_app, fake_waypoints_length; lia|].
        split; [intros k Hk; rewrite app_nth1 by lia; apply Hacc; exact Hk|].
        split.
        { intros k Hk. rewrite !app_nth1 by lia. apply Hsp. exact Hk. }
        split.
        { intros k Hk.
          rewrite fake_waypoints_step.
          - rewrite !app_nth1 by lia. reflexivity.
          - lia.
          - rewrite Hxv. reflexivity.
          - lia. }
        split.
        { intros _. split; [exact Hdeg|]. split; [|reflexivity].
          rewrite app_nth1 by lia. exact Hlow. }
        intros Hb. lia.
      * apply Hcont. right. lra.
    + apply Hcont. left. exact Hdeg.
Qed.

End CarFrame.

(** ** The fit window *)

Section Window.

Context `{MPC_h}.

Lemma find_closest_from_bounds (pts_x pts_y : list R) (pos_x pos_y : R) :
  length pts_x = length pts_y ->
  (Z.of_nat (length pts_x) < 2 ^ 31)%Z ->
  forall (fuel i : nat) (c : Z) (d : R),
    (i + fuel = length pts_x)%nat ->
    (-1 <= c < Z.of_nat (length pts_x))%Z ->
    exists r,
      find_closest_from pts_x pts_y pos_x pos_y i fuel c d = Some r
      /\ (-1 <= r < Z.of_nat (length pts_x))%Z.
Proof.
  intros Hlen Hint. induction fuel as [|fuel IH]; intros i c d Hi Hc.
  - exists c. split; [reflexivity|exact Hc].
  - cbn [find_closest_from].
    rewrite (nth_error_nth' pts_x 0) by lia.
    rewrite (nth_error_nth' pts_y 0) by lia.
    cbn [bind].
    match goal with
    | |- context [Rlt_dec ?a ?b] => destruct (Rlt_dec a b)
    end.
    + apply IH; [lia|]. rewrite to_int_small; lia.
    + apply IH; [lia|exact Hc].
Qed.

Lemma find_closest_from_take (pts_x pts_y : list R) (pos_x pos_y : R)
    (i fuel : nat) (c : Z) (d x y : R) :
  nth_error pts_x i = Some x -> nth_error pts_y i = Some y ->
  (x - pos_x) * (x - pos_x) + (y - pos_y) * (y - pos_y) < d ->
  find_closest_from pts_x pts_y pos_x pos_y i (S fuel) c d
  = find_closest_from pts_x pts_y pos_x pos_y (S i) fuel
      (to_int (Z.of_nat i))
      ((x - pos_x) * (x - pos_x) + (y - pos_y) * (y - pos_y)).
Proof.
  intros Ex Ey Hlt. cbn [find_closest_from]. rewrite Ex, Ey. cbn [bind].
  destruct (Rlt_dec _ d) as [_|Hc]; [reflexivity|contradiction].
Qed.

Lemma find_closest_from_skip (pts_x pts_y : list R) (pos_x pos_y : R)
    (i fuel : nat) (c : Z) (d x y : R) :
  nth_error pts_x i = Some x -> nth_error pts_y i = Some y ->
  ~ (x - pos_x) * (x - pos_x) + (y - pos_y) * (y - pos_y) < d ->
  find_closest_from pts_x pts_y pos_x pos_y i (S fuel) c d
  = find_closest_from pts_x pts_y pos_x pos_y (S i) fuel c d.
Proof.
  intros Ex Ey Hge. cbn [find_closest_from]. rewrite Ex, Ey. cbn [bind].
  destruct (Rlt_dec _ d) as [Hc|_]; [contradiction|reflexivity].
Qed.

Lemma find_closest_bounds (pts_x pts_y : list R) (pos_x pos_y : R) :
  length pts_x = length pts_y ->
  (Z.of_nat (length pts_x) < 2 ^ 31)%Z ->
  exists r,
    find_closest pts_x pts_y pos_x pos_y = Some r
    /\ (-1 <= r < Z.of_nat (length pts_x))%Z.
Proof.
  intros Hlen Hint. unfold find_closest.
  apply find_closest_from_bounds; [exact Hlen|exact Hint|lia|lia].
Qed.

Lemma window_idx_value (closest_idx : Z) (size i : nat) :
  (0 < size)%nat -> (Z.of_nat size < 2 ^ 31)%Z ->
  window_idx closest_idx size i
  = Some (window_pos closest_idx i mod Z.of_nat size)%Z.
Proof.
  intros Hpos Hint. unfold window_idx, urem.
  destruct (Z.eqb_spec (Z.of_nat size) 0) as [E|_]; [lia|].
  cbn [bind]. f_equal. apply to_int_small.
  pose proof (Z.mod_pos_bound (window_pos closest_idx i) (Z.of_nat size)).
  lia.
Qed.

Lemma window_idx_empty (closest_idx : Z) (i : nat) :
  window_idx closest_idx 0 i = None.
Proof. reflexivity. Qed.

(** From a start that is not negative, and as long as the sum stays
    below 2^64, the position is the sum itself. *)
Lemma window_pos_plain (closest_idx : Z) (i : nat) :
  (0 <= closest_idx)%Z -> (0 <= STEP_POLY)%Z ->
  (closest_idx + Z.of_nat i * STEP_POLY < 2 ^ 64)%Z ->
  window_pos closest_idx i = (closest_idx + Z.of_nat i * STEP_POLY)%Z.
Proof.
  intros Hc Hs Hsum. unfold window_pos.
  assert (0 <= Z.of_nat i * STEP_POLY)%Z by (apply Z.mul_nonneg_nonneg; lia).
  replace (to_size_t (Z.of_nat i * to_size_t STEP_POLY))
    with (Z.of_nat i * STEP_POLY)%Z.
  - rewrite (to_size_t_small closest_idx) by lia.
    apply to_size_t_small. lia.
  - unfold to_size_t, size_t_modulus.
    rewrite Zmult_mod_idemp_r. symmetry. apply Z.mod_small. lia.
Qed.

(** From a negative start the first position is 2^64 higher. *)
Lemma window_pos_negative (closest_idx : Z) :
  (- 2 ^ 31 <= closest_idx < 0)%Z ->
  window_pos closest_idx 0 = (closest_idx + 2 ^ 64)%Z.
Proof.
  intros Hc. unfold window_pos.
  rewrite Z.mul_0_l. rewrite (to_size_t_small 0) by lia.
  rewrite (to_size_t_neg closest_idx) by lia.
  rewrite Z.add_0_r. apply to_size_t_small. lia.
Qed.

(** With a negative start the first index is the cyclic one only if the
    length divides 2^64. *)
Lemma window_idx_negative (closest_idx : Z) (size : nat) :
  (- 2 ^ 31 <= closest_idx < 0)%Z ->
  (0 < size)%nat -> (Z.of_nat size < 2 ^ 31)%Z ->
  window_idx closest_idx size 0
  = Some ((closest_idx + 2 ^ 64) mod Z.of_nat size)%Z
  /\ ((2 ^ 64) mod Z.of_nat size <> 0 ->
      window_idx closest_idx size 0
      <> Some (closest_idx mod Z.of_nat size))%Z.
Proof.
  intros Hc Hpos Hint.
  rewrite window_idx_value by assumption.
  rewrite window_pos_negative by exact Hc.
  split; [reflexivity|]. intros Hrem E. injection E as E'.
  change (Z.pow_pos 2 64) with (2 ^ 64)%Z in E'.
  rewrite Z.add_mod in E' by lia.
  pose proof (Z.mod_pos_bound closest_idx (Z.of_nat size)) as Ha.
  pose proof (Z.mod_pos_bound (2 ^ 64) (Z.of_nat size)) as Hb.
  set (a := (closest_idx mod Z.of_nat size)%Z) in *.
  set (b := (2 ^ 64 mod Z.of_nat size)%Z) in *.
  destruct (Z_lt_dec (a + b) (Z.of_nat size)) as [Hlt|Hge].
  - rewrite Z.mod_small in E' by lia. lia.
  - assert (Hq : ((a + b) mod Z.of_nat size = a + b - Z.of_nat size)%Z).
    { symmetry. apply Z.mod_unique with (q := 1%Z); lia. }
    lia.
Qed.

Lemma closest_pts_from_value (pts_x pts_y : list R) (closest_idx : Z) :
  pts_x <> [] -> length pts_x = length pts_y ->
  (Z.of_nat (length pts_x) < 2 ^ 31)%Z ->
  forall fuel i,
    closest_pts_from pts_x pts_y closest_idx i fuel
    = Some
        (map (fun k =>
                nth (Z.to_nat (window_pos closest_idx k
                               mod Z.of_nat (length pts_x))) pts_x 0)
             (seq i fuel),
         map (fun k =>
                nth (Z.to_nat (window_pos closest_idx k
                               mod Z.of_nat (length pts_x))) pts_y 0)
             (seq i fuel)).
Proof.
  intros Hne Hlen Hint.
  assert (Hpos : (0 < length pts_x)%nat).
  { destruct pts_x; [contradiction|simpl; lia]. }
  induction fuel as [|fuel IH]; intros i; [reflexivity|].
  cbn [closest_pts_from seq map].
  rewrite window_idx_value by assumption. cbn [bind].
  pose proof (Z.mod_pos_bound (window_pos closest_idx i)
                (Z.of_nat (length pts_x))) as Hb.
  set (r := (window_pos closest_idx i mod Z.of_nat (length pts_x))%Z) in *.
  replace (to_size_t r) with (Z.of_nat (Z.to_nat r))
    by (rewrite to_size_t_small; lia).
  rewrite !vec_at_nat.
  rewrite (nth_error_nth' pts_x 0) by lia.
  rewrite (nth_error_nth' pts_y 0) by lia.
  cbn [bind]. rewrite IH. reflexivity.
Qed.

End Window.

(** ** One round *)

Section Round.

Context `{MPC_h}.

Lemma tick_not_ready (s : Node) :
  ready s = false -> tick s = Some (s, []).
Proof. intros Hr. unfold tick. rewrite Hr. reflexivity. Qed.

(** A node fresh from the constructor publishes nothing. *)
Lemma fresh_node_is_silent (params : Params) (u : Indeterminate) :
  tick (MPCControllerNode params u) = Some (MPCControllerNode params u, []).
Proof. apply tick_not_ready. reflexivity. Qed.

(** Rounds are silent as long as nothing that arrives completes the
    inputs. *)
Lemma loop_silent_while_not_ready (arrivals : list (list Event)) :
  forall s,
    ready s = false ->
    (forall k pending,
        nth_error arrivals k = Some pending ->
        ready (fold_left (fun n p => spinOnce p n) (firstn (S k) arrivals) s) = false) ->
    exists s', loop arrivals s = Some (s', map (fun _ => []) arrivals).
Proof.
  induction arrivals as [|pending later IH]; intros s Hr Hall.
  - exists s. reflexivity.
  - cbn [loop]. rewrite (tick_not_ready s Hr). cbn [bind].
    destruct (IH (spinOnce pending s)) as (s' & E).
    + apply (Hall 0%nat pending). reflexivity.
    + intros k p Ek. apply (Hall (S k) p). exact Ek.
    + rewrite E. cbn [bind map]. exists s'. reflexivity.
Qed.

Lemma signal_go_cb_flag (data : Z) (s : Node) :
  m_go_flag (signal_go_cb data s)
  = if (data =? 0)%Z then false
    else if (data =? 2309)%Z then true
    else m_go_flag s.
Proof.
  unfold signal_go_cb.
  destruct (data =? 0)%Z; [reflexivity|].
  destruct (data =? 2309)%Z; reflexivity.
Qed.

Lemma tick_window_value (s : Node) :
  centerline_ok s ->
  exists idx,
    find_closest (m_pts_x s) (m_pts_y s) (pos_x_lat s) (pos_y_lat s)
    = Some idx
    /\ (-1 <= idx < Z.of_nat (length (m_pts_x s)))%Z
    /\ tick_window s
       = Some
           (map (fun k =>
                   nth (Z.to_nat
                          (window_pos (to_int (idx - NUM_STEPS_BACK)) k
                           mod Z.of_nat (length (m_pts_x s))))
                       (m_pts_x s) 0)
                (seq 0 (m_num_steps_poly s)),
            map (fun k =>
                   nth (Z.to_nat
                          (window_pos (to_int (idx - NUM_STEPS_BACK)) k
                           mod Z.of_nat (length (m_pts_x s))))
                       (m_pts_y s) 0)
                (seq 0 (m_num_steps_poly s))).
Proof.
  intros (Hne & Hlen & Hint).
  destruct (find_closest_bounds (m_pts_x s) (m_pts_y s)
              (pos_x_lat s) (pos_y_lat s) Hlen Hint) as (idx & E & Hb).
  exists idx. split; [exact E|]. split; [exact Hb|].
  unfold tick_window. rewrite E. cbn [bind]. unfold closest_pts.
  apply closest_pts_from_value; assumption.
Qed.

(** Where the shifted start is not negative and no sum reaches 2^64, the
    window is the cyclic one of the specification. *)
Lemma tick_window_cyclic (s : Node) (idx : Z) :
  centerline_ok s ->
  find_closest (m_pts_x s) (m_pts_y s) (pos_x_lat s) (pos_y_lat s)
  = Some idx ->
  (0 <= NUM_STEPS_BACK <= idx)%Z -> (0 <= STEP_POLY)%Z ->
  (idx - NUM_STEPS_BACK + Z.of_nat (m_num_steps_poly s) * STEP_POLY
   < 2 ^ 64)%Z ->
  tick_window s
  = Some (Spec.window (m_pts_x s) idx (m_num_steps_poly s),
          Spec.window (m_pts_y s) idx (m_num_steps_poly s)).
Proof.
  intros Hok E Hback Hstep Hsum.
  destruct (tick_window_value s Hok) as (idx' & E' & Hb & Hw).
  rewrite E in E'. inversion E'. subst idx'. clear E'.
  rewrite Hw. destruct Hok as (Hne & Hlen & Hint).
  unfold Spec.window. rewrite <- Hlen.
  rewrite to_int_small by lia.
  f_equal. f_equal.
  - apply map_ext_in. intros k Hk. apply in_seq in Hk.
    rewrite window_pos_plain; [reflexivity|lia|lia|nia].
  - apply map_ext_in. intros k Hk. apply in_seq in Hk.
    rewrite window_pos_plain; [reflexivity|lia|lia|nia].
Qed.

Lemma tick_window_total (s : Node) :
  centerline_ok s ->
  exists cx cy,
    tick_window s = Some (cx, cy)
    /\ length cx = m_num_steps_poly s /\ length cy = m_num_steps_poly s.
Proof.
  intros Hok. destruct (tick_window_value s Hok) as (idx & _ & _ & Hw).
  rewrite Hw. eexists. eexists. split; [reflexivity|].
  rewrite !length_map, !length_seq. split; reflexivity.
Qed.

Lemma tick_window_empty (s : Node) :
  m_pts_x s = [] -> (1 <= m_num_steps_poly s)%nat -> tick_window s = None.
Proof.
  intros Hx Hn. unfold tick_window, find_closest. rewrite Hx.
  cbn [length find_closest_from bind]. unfold closest_pts.
  destruct (m_num_steps_poly s) as [|n]; [lia|]. reflexivity.
Qed.

Lemma car_frame_total (cx cy : list R) (x_p y_p sn cs : R) (d n : nat) :
  (1 <= d)%nat -> (Z.of_nat n < 2 ^ 64)%Z ->
  length cx = n -> length cy = n ->
  exists xv yv fraction,
    car_frame cx cy x_p y_p sn cs d n = Some (xv, yv, fraction)
    /\ length xv = n /\ length yv = n.
Proof.
  intros Hd Hn Hx Hy. unfold car_frame.
  destruct (car_frame_from_outcome cx cy x_p y_p sn cs d n Hd Hn Hx Hy
              n 0%nat [] []) as (b & xv & yv & fr & E & _ & Hlx & Hly & _).
  - lia.
  - reflexivity.
  - reflexivity.
  - intros k Hk. lia.
  - intros k Hk. lia.
  - exists xv, yv, fr. split; [exact E|]. split; assumption.
Qed.

Lemma copy_n_all (n : nat) (v : list R) :
  length v = n -> copy_n n v = Some v.
Proof.
  intros <-. unfold copy_n. rewrite Nat.leb_refl. rewrite firstn_all.
  reflexivity.
Qed.

Lemma tick_fit_total (s : Node) :
  runs_through s ->
  exists f,
    tick_fit s = Some f
    /\ length (f_xvals f) = m_num_steps_poly s
    /\ length (f_yvals f) = m_num_steps_poly s
    /\ (m_poly_degree s < length (f_coeffs f))%nat.
Proof.
  intros (Hc & (Hd & Hn & _) & (Hfit & _)).
  destruct (tick_window_total s Hc) as (cx & cy & Ew & Hcx & Hcy).
  destruct (car_frame_total cx cy (pos_x_lat s) (pos_y_lat s)
              (sin (psi_lat s)) (cos (psi_lat s))
              (m_poly_degree s) (m_num_steps_poly s) Hd Hn Hcx Hcy)
    as (xv & yv & fr & Ec & Hxv & Hyv).
  unfold tick_fit. rewrite Ew. cbn [bind]. rewrite Ec. cbn [bind].
  rewrite (copy_n_all _ _ Hxv), (copy_n_all _ _ Hyv). cbn [bind].
  specialize (Hfit xv yv). apply Nat.ltb_lt in Hfit. rewrite Hfit.
  eexists. split; [reflexivity|]. cbn.
  apply Nat.ltb_lt in Hfit. repeat split; assumption.
Qed.

(** *** The markers *)

Lemma marker_points_even (x_p y_p sn cs : R) (n : nat) :
  forall vars, length vars = (2 * n)%nat ->
    exists ps, marker_points vars x_p y_p sn cs = Some ps.
Proof.
  induction n as [|n IH]; intros vars Hlen.
  - destruct vars; [|discriminate]. exists []. reflexivity.
  - destruct vars as [|x [|y rest]]; try (simpl in Hlen; lia).
    destruct (IH rest) as (ps & E); [simpl in Hlen; lia|].
    cbn [marker_points]. rewrite E. cbn [bind]. eexists. reflexivity.
Qed.

Lemma interleave_length (xs ys : list R) :
  length xs = length ys -> length (interleave xs ys) = (2 * length xs)%nat.
Proof.
  revert ys. induction xs as [|x xs IH]; intros [|y ys] Hlen;
    try discriminate; [reflexivity|].
  cbn [interleave length]. rewrite IH; [lia|]. simpl in Hlen. lia.
Qed.

Lemma poly_samples_even (coeffs : list R) (fuel : nat) :
  forall x, exists n, length (poly_samples coeffs x fuel) = (2 * n)%nat.
Proof.
  induction fuel as [|fuel IH]; intros x.
  - exists 0%nat. reflexivity.
  - cbn [poly_samples]. destruct (Rlt_dec x 2.1).
    + destruct (IH (x + 0.2)) as (n & E). exists (S n).
      cbn [length]. rewrite E. lia.
    + exists 0%nat. reflexivity.
Qed.

Lemma debug_markers_total (s : Node) (f : Fit) (delta speed : R)
    (rest : list R) :
  (1 <= m_num_steps_poly s)%nat ->
  length (f_xvals f) = m_num_steps_poly s ->
  length (f_yvals f) = m_num_steps_poly s ->
  Nat.Even (length rest) ->
  exists a b c,
    debug_markers s f (delta :: speed :: rest)
    = Some [NextPosMarker a; ClosestMarker b; PolyMarker c].
Proof.
  intros Hn Hx Hy [k Hk]. unfold debug_markers.
  cbn [get_marker].
  destruct (marker_points_even (pos_x_lat s) (pos_y_lat s)
              (sin (psi_lat s)) (cos (psi_lat s)) k rest Hk) as (a & Ea).
  rewrite Ea. cbn [bind].
  rewrite (copy_n_all _ _ Hx), (copy_n_all _ _ Hy). cbn [bind].
  assert (Hil : length (interleave (f_xvals f) (f_yvals f))
                = (2 * m_num_steps_poly s)%nat).
  { rewrite interleave_length by lia. rewrite Hx. reflexivity. }
  destruct (interleave (f_xvals f) (f_yvals f)) as [|u [|w tl]] eqn:Ei;
    try (simpl in Hil; lia).
  destruct (marker_points_even (pos_x_lat s) (pos_y_lat s)
              (sin (psi_lat s)) (cos (psi_lat s))
              (m_num_steps_poly s - 1) tl) as (b & Eb).
  { simpl in Hil. lia. }
  cbn [get_marker]. rewrite Eb. cbn [bind].
  destruct (poly_samples_even (f_coeffs f) 12 0) as (m & Em).
  destruct (marker_points_even (pos_x_lat s) (pos_y_lat s)
              (sin (psi_lat s)) (cos (psi_lat s)) m _ Em) as (c & Ec).
  rewrite Ec. cbn [bind]. exists a, b, c. reflexivity.
Qed.

Lemma debug_markers_shape (s : Node) (f : Fit) (vars : list R)
    (markers : list Msg) :
  debug_markers s f vars = Some markers -> commands markers = [].
Proof.
  unfold debug_markers.
  repeat match goal with
         | |- context [bind ?m _] => destruct m; cbn [bind]
         end; intros E; inversion E; reflexivity.
Qed.

(** *** What a round publishes *)

Lemma tick_published (s s' : Node) (out : list Msg) :
  ready s = true -> tick s = Some (s', out) ->
  exists f vars delta speed markers,
    tick_fit s = Some f
    /\ tick_solve s f = Some vars
    /\ nth_error vars 0 = Some delta
    /\ nth_error vars 1 = Some speed
    /\ s' = set_actuators (steer_cmd s delta) (rpm_cmd s speed) s
    /\ out = ServoPosition (steer_cmd s delta)
             :: MotorSpeed (rpm_cmd s speed) :: markers
    /\ commands markers = []
    /\ (m_debug s = false -> markers = []).
Proof.
  intros Hr. unfold tick. rewrite Hr.
  destruct (tick_fit s) as [f|] eqn:Ef; cbn [bind]; [|discriminate].
  destruct (tick_solve s f) as [vars|] eqn:Ev; cbn [bind]; [|discriminate].
  destruct (nth_error vars 0) as [delta|] eqn:E0; cbn [bind];
    [|discriminate].
  destruct (nth_error vars 1) as [speed|] eqn:E1; cbn [bind];
    [|discriminate].
  fold (steer_cmd s delta). fold (rpm_cmd s speed).
  destruct (m_debug s) eqn:Ed.
  - destruct (debug_markers s f vars) as [markers|] eqn:Em; cbn [bind];
      [|discriminate].
    intros E. inversion E. subst s' out.
    exists f, vars, delta, speed, markers.
    split; [reflexivity|]. split; [exact Ev|]. split; [exact E0|].
    split; [exact E1|]. split; [reflexivity|]. split; [reflexivity|].
    split; [eapply debug_markers_shape; exact Em|discriminate].
  - cbn [bind]. intros E. inversion E. subst s' out.
    exists f, vars, delta, speed, [].
    split; [reflexivity|]. split; [exact Ev|]. split; [exact E0|].
    split; [exact E1|]. repeat split; reflexivity.
Qed.

Lemma tick_total (s : Node) :
  ready s = true -> runs_through s -> exists s' out, tick s = Some (s', out).
Proof.
  intros Hr Hrun.
  destruct (tick_fit_total s Hrun) as (f & Ef & Hx & Hy & Hco).
  destruct Hrun as (_ & (Hd & _ & Hdbg) & (_ & Hsolve)).
  unfold tick. rewrite Hr, Ef. cbn [bind]. unfold tick_solve.
  destruct (nth_error (f_coeffs f) 1) as [c1|] eqn:Ec1.
  2:{ apply nth_error_None in Ec1. lia. }
  cbn [bind].
  destruct (Hsolve [0; 0; 0; polyeval (f_coeffs f) 0; - atan c1]
              (f_coeffs f) (new_ref_v s (f_fraction_steps_OK f)))
    as (delta & speed & rest & Ev & Heven).
  rewrite Ev. cbn [nth_error bind].
  destruct (m_debug s) eqn:Ed.
  - destruct (debug_markers_total s f delta speed rest) as (a & b & c & Em);
      auto.
    rewrite Em. cbn [bind]. eexists. eexists. reflexivity.
  - cbn [bind]. eexists. eexists. reflexivity.
Qed.

End Round.

(** ** Actuator commands *)

Section Commands.

Context `{MPC_h}.

Lemma steer_in_dzik_range (delta : R) : 0 <= steer_in_dzik delta <= 1.
Proof.
  unfold steer_in_dzik.
  destruct (Rlt_dec (CENTER_IN_DZIK - delta) 0); [lra|].
  destruct (Rlt_dec 1 (CENTER_IN_DZIK - delta)); lra.
Qed.

Lemma rpm_in_dzik_scale (speed : R) :
  rpm_in_dzik speed = speed * (600 / (2 * PI * WHEEL_RADIUS_IN_DZIK)).
Proof.
  unfold rpm_in_dzik, Rdiv.
  rewrite !Rinv_mult. ring.
Qed.

Lemma rpm_in_dzik_sign (speed : R) :
  0 < WHEEL_RADIUS_IN_DZIK ->
  (0 <= speed -> 0 <= rpm_in_dzik speed)
  /\ (speed < 0 -> rpm_in_dzik speed < 0).
Proof.
  intros Hw. rewrite rpm_in_dzik_scale.
  assert (Hk : 0 < 600 / (2 * PI * WHEEL_RADIUS_IN_DZIK)).
  { apply Rdiv_lt_0_compat; [lra|].
    apply Rmult_lt_0_compat; [|exact Hw].
    pose proof PI_RGT_0. lra. }
  split; intros Hs; nra.
Qed.

(** C1. In a round that publishes, the steer command is in [0, 1], the
    neutral position being in that range; the rpm command is zero when
    the go flag is down and is otherwise the solver's speed scaled by
    [600 / (2 pi WHEEL_RADIUS)]: not negative when that speed is not
    negative, and negative when it is. *)
Theorem C1_command_ranges (s : Node) :
  ready s = true ->
  0 <= CENTER_IN_DZIK <= 1 ->
  0 < WHEEL_RADIUS_IN_DZIK ->
  (runs_through s -> exists s' out, tick s = Some (s', out))
  /\ (forall s' out, tick s = Some (s', out) ->
      exists steer rpm markers,
        out = ServoPosition steer :: MotorSpeed rpm :: markers
        /\ commands markers = []
        /\ 0 <= steer <= 1
        /\ (m_go_flag s = false -> rpm = 0)
        /\ (m_go_flag s = true ->
            exists f vars speed,
              tick_fit s = Some f
              /\ tick_solve s f = Some vars
              /\ nth_error vars 1 = Some speed
              /\ rpm = rpm_in_dzik speed
              /\ (0 <= speed -> 0 <= rpm)
              /\ (speed < 0 -> rpm < 0))).
Proof.
  intros Hr Hc Hw. split; [apply tick_total; exact Hr|].
  intros s' out E.
  destruct (tick_published s s' out Hr E)
    as (f & vars & delta & speed & markers & Ef & Ev & E0 & E1 & _ & Eo
        & Hm & _).
  exists (steer_cmd s delta), (rpm_cmd s speed), markers.
  split; [exact Eo|]. split; [exact Hm|].
  unfold steer_cmd, rpm_cmd.
  destruct (m_go_flag s); cbn [negb].
  - split; [apply steer_in_dzik_range|]. split; [discriminate|].
    intros _. exists f, vars, speed.
    destruct (rpm_in_dzik_sign speed Hw) as [Hpos Hneg].
    repeat split; assumption || reflexivity.
  - split; [exact Hc|]. split; [reflexivity|discriminate].
Qed.

(** C6. A round with all inputs ready publishes the neutral steer
    position and zero rpm when the go flag is down, whatever the solver
    answered, and the two computed commands when it is up; and a round
    runs to its end whenever the centre line, the settings and what
    [MPC.h] returns have the expected shape. *)
Theorem C6_go_gating (s : Node) :
  ready s = true ->
  (runs_through s -> exists s' out, tick s = Some (s', out))
  /\ (forall s' out, tick s = Some (s', out) ->
      (m_go_flag s = false ->
       commands out = [ServoPosition CENTER_IN_DZIK; MotorSpeed 0]
       /\ m_steer s' = CENTER_IN_DZIK /\ m_rpm s' = 0)
      /\ (m_go_flag s = true ->
          exists f vars delta speed,
            tick_fit s = Some f
            /\ tick_solve s f = Some vars
            /\ nth_error vars 0 = Some delta
            /\ nth_error vars 1 = Some speed
            /\ commands out = [ServoPosition (steer_in_dzik delta);
                               MotorSpeed (rpm_in_dzik speed)])).
Proof.
  intros Hr. split; [apply tick_total; exact Hr|].
  intros s' out E.
  destruct (tick_published s s' out Hr E)
    as (f & vars & delta & speed & markers & Ef & Ev & E0 & E1 & Es & Eo
        & Hm & _).
  subst out s'. unfold commands in *. cbn [filter is_command].
  rewrite Hm. unfold steer_cmd, rpm_cmd.
  split; intros Hgo; rewrite Hgo; cbn [negb set_actuators m_steer m_rpm].
  - repeat split; reflexivity.
  - exists f, vars, delta, speed. repeat split; assumption || reflexivity.
Qed.

(** C2. A round in which one of the four readiness flags is down
    publishes nothing and leaves the node as it was. *)
Theorem C2_skipped_round_is_silent (s : Node) :
  ready s = false -> tick s = Some (s, []).
Proof. apply tick_not_ready. Qed.

(** The heading projected in the round after one that published: the
    steer term is the servo command that round stored in [m_steer]. *)
Lemma psi_lat_after_tick (s s' : Node) (out : list Msg) :
  ready s = true -> tick s = Some (s', out) ->
  exists f vars delta,
    tick_fit s = Some f /\ tick_solve s f = Some vars
    /\ nth_error vars 0 = Some delta
    /\ m_steer s' = steer_cmd s delta
    /\ psi_lat s'
       = m_psi s - m_latency s * (m_speed s * steer_cmd s delta / Lf).
Proof.
  intros Hr E.
  destruct (tick_published s s' out Hr E)
    as (f & vars & delta & speed & markers & Ef & Ev & E0 & E1 & Es & _).
  exists f, vars, delta. subst s'.
  repeat split; assumption || reflexivity.
Qed.

(** What the fit of a round holds: the result of the car frame loop on
    the window of the round. *)
Lemma tick_fit_car_frame (s : Node) (f : Fit) :
  tick_fit s = Some f ->
  exists closest_pts_x closest_pts_y,
    tick_window s = Some (closest_pts_x, closest_pts_y)
    /\ car_frame closest_pts_x closest_pts_y
         (pos_x_lat s) (pos_y_lat s) (sin (psi_lat s)) (cos (psi_lat s))
         (m_poly_degree s) (m_num_steps_poly s)
       = Some (f_xvals f, f_yvals f, f_fraction_steps_OK f).
Proof.
  unfold tick_fit. intros E.
  destruct (tick_window s) as [[cx cy]|]; cbn [bind] in E; [|discriminate].
  destruct (car_frame cx cy (pos_x_lat s) (pos_y_lat s) (sin (psi_lat s))
              (cos (psi_lat s)) (m_poly_degree s) (m_num_steps_poly s))
    as [[[xv yv] fr]|] eqn:Ec; cbn [bind] in E; [|discriminate].
  destruct (copy_n (m_num_steps_poly s) xv); cbn [bind] in E;
    [|discriminate].
  destruct (copy_n (m_num_steps_poly s) yv); cbn [bind] in E;
    [|discriminate].
  destruct (m_poly_degree s <? _)%nat; [|discriminate].
  injection E as E. subst f. exists cx, cy.
  split; [reflexivity|exact Ec].
Qed.

(** C8. In every round with the inputs ready that runs to its end, the
    solver is called with the reference velocity
    [alpha * ref_v + (1 - alpha) * (fraction_steps_OK * ref_v)], where
    [alpha] is [m_ref_v_alpha] and [fraction_steps_OK] is what the car
    frame loop of that round returned, and the commands published come
    from the answer to that call; for [alpha] in [0, 1], a positive
    [ref_v] and a fraction below one that velocity is at most [ref_v].
    A round runs to its end whenever the centre line, the settings and
    what [MPC.h] returns have the expected shape. *)
Theorem C8_new_ref_v_on_tick (s : Node) :
  ready s = true ->
  (runs_through s -> exists s' out, tick s = Some (s', out))
  /\ (forall s' out, tick s = Some (s', out) ->
      exists closest_pts_x closest_pts_y f c1 delta speed,
        tick_window s = Some (closest_pts_x, closest_pts_y)
        /\ car_frame closest_pts_x closest_pts_y
             (pos_x_lat s) (pos_y_lat s) (sin (psi_lat s)) (cos (psi_lat s))
             (m_poly_degree s) (m_num_steps_poly s)
           = Some (f_xvals f, f_yvals f, f_fraction_steps_OK f)
        /\ tick_fit s = Some f
        /\ nth_error (f_coeffs f) 1 = Some c1
        /\ (let ref_v_given :=
              m_ref_v_alpha s * m_ref_v s
              + (1 - m_ref_v_alpha s)
                * (f_fraction_steps_OK f * m_ref_v s) in
            let vars :=
              Solve [0; 0; 0; polyeval (f_coeffs f) 0; - atan c1]
                (f_coeffs f) ref_v_given in
            nth_error vars 0 = Some delta
            /\ nth_error vars 1 = Some speed
            /\ commands out = [ServoPosition (steer_cmd s delta);
                               MotorSpeed (rpm_cmd s speed)]
            /\ (0 <= m_ref_v_alpha s <= 1 -> 0 < m_ref_v s ->
                f_fraction_steps_OK f < 1 ->
                ref_v_given <= m_ref_v s))).
Proof.
  intros Hr. split; [apply tick_total; exact Hr|].
  intros s' out E.
  destruct (tick_published s s' out Hr E)
    as (f & vars & delta & speed & markers & Ef & Ev & E0 & E1 & _ & Eo
        & Hm & _).
  destruct (tick_fit_car_frame s f Ef) as (cx & cy & Ew & Ec).
  unfold tick_solve in Ev.
  destruct (nth_error (f_coeffs f) 1) as [c1|] eqn:Ec1; cbn [bind] in Ev;
    [|discriminate].
  injection Ev as Ev. unfold new_ref_v in Ev.
  exists cx, cy, f, c1, delta, speed.
  split; [exact Ew|]. split; [exact Ec|]. split; [exact Ef|].
  split; [exact Ec1|]. cbv zeta. rewrite Ev.
  split; [exact E0|]. split; [exact E1|]. split.
  - subst out. unfold commands in *. cbn [filter is_command].
    rewrite Hm. reflexivity.
  - intros Ha Hv Hf.
    exact (new_ref_v_le s (f_fraction_steps_OK f) Ha Hv Hf).
Qed.

End Commands.

(** ** The x spacing after the car frame loop *)

Section Spacing.

Context `{MPC_h}.

(** C5. After the car frame loop, with [b] the round at which it broke
    off (the number of points if it did not): the sequence has
    [num_steps_poly] entries; every index [0 < i < b] is at most the
    degree or has [x_c[i] - x_c[i-1] >= X_DELTA_MIN]; the entries from
    [b] on are evenly spaced, by the last accepted difference divided by
    [num_steps_poly - b + 1], whatever that quotient is. Without a break
    the whole sequence satisfies the spacing rule. *)
Theorem C5_x_spacing_until_break (closest_pts_x closest_pts_y : list R)
    (x_p y_p sn cs : R) (poly_degree num_steps_poly : nat) :
  (1 <= poly_degree)%nat ->
  (Z.of_nat num_steps_poly < 2 ^ 64)%Z ->
  length closest_pts_x = num_steps_poly ->
  length closest_pts_y = num_steps_poly ->
  exists b xv yv fraction,
    car_frame closest_pts_x closest_pts_y x_p y_p sn cs
      poly_degree num_steps_poly = Some (xv, yv, fraction)
    /\ (b <= num_steps_poly)%nat
    /\ length xv = num_steps_poly
    /\ (forall i, (0 < i < b)%nat ->
          (i <= poly_degree)%nat
          \/ nth i xv 0 - nth (i - 1) xv 0 >= X_DELTA_MIN_VALUE)
    /\ (forall i, (b <= i < num_steps_poly)%nat ->
          nth i xv 0 - nth (i - 1) xv 0
          = (nth (b - 1) xv 0 - nth (b - 2) xv 0)
            / INR (num_steps_poly - b + 1))
    /\ ((b < num_steps_poly)%nat ->
          (poly_degree < b)%nat
          /\ fraction = 1 * INR (b + 1) / INR num_steps_poly)
    /\ (b = num_steps_poly ->
          fraction = 1 /\ Spec.x_spacing_ok poly_degree xv).
Proof.
  intros Hd Hn Hx Hy. unfold car_frame.
  destruct (car_frame_from_outcome closest_pts_x closest_pts_y x_p y_p sn cs
              poly_degree num_steps_poly Hd Hn Hx Hy
              num_steps_poly 0%nat [] [])
    as (b & xv & yv & fr & E & Hb & Hlx & Hly & Hacc & Hsp & Htail & Hbrk
        & Hfull).
  - lia.
  - reflexivity.
  - reflexivity.
  - intros k Hk. lia.
  - intros k Hk. lia.
  - exists b, xv, yv, fr.
    split; [exact E|]. split; [lia|]. split; [exact Hlx|].
    split; [exact Hsp|]. split; [exact Htail|]. split.
    + intros Hlt. destruct (Hbrk Hlt) as (Hdb & _ & Hfr). split; assumption.
    + intros Heq. split; [apply Hfull; exact Heq|].
      unfold Spec.x_spacing_ok. intros i Hi. rewrite Hlx in Hi.
      destruct (Hsp i) as [Hle|Hge]; [lia|right; exact Hle|left; exact Hge].
Qed.

End Spacing.

(** ** An empty centre line *)

Section EmptyCenterline.

Context `{MPC_h}.

(** C10. The centre line callback raises the ready flag whatever it
    received. With at least one point to fit and fewer than 2^31 points
    received, the window of the next round is undefined exactly when the
    centre line received was empty, and a round that is ready then has no
    defined result. *)
Theorem C10_empty_centerline (data : list Point) (s : Node) :
  (1 <= m_num_steps_poly s)%nat ->
  (Z.of_nat (length data) < 2 ^ 31)%Z ->
  m_pts_OK (centerline_cb data s) = true
  /\ (tick_window (centerline_cb data s) = None <-> data = [])
  /\ (data = [] -> window_idx (to_int (-1 - NUM_STEPS_BACK)) 0 0 = None)
  /\ (data = [] -> ready (centerline_cb data s) = true ->
      tick (centerline_cb data s) = None).
Proof.
  intros Hn Hint. split; [reflexivity|].
  assert (Hempty : data = [] -> tick_window (centerline_cb data s) = None).
  { intros ->. apply tick_window_empty; [reflexivity|exact Hn]. }
  split; [split; [|exact Hempty]|split].
  - intros Hnone. destruct data as [|p data]; [reflexivity|].
    destruct (tick_window_total (centerline_cb (p :: data) s))
      as (cx & cy & E & _).
    + unfold centerline_ok. cbn [centerline_cb m_pts_x m_pts_y].
      split; [discriminate|]. rewrite !length_map.
      split; [reflexivity|exact Hint].
    + rewrite E in Hnone. discriminate.
  - intros _. reflexivity.
  - intros Hd Hr. unfold tick. rewrite Hr. unfold tick_fit.
    rewrite (Hempty Hd). reflexivity.
Qed.

End EmptyCenterline.

(** ** Evaluations on the sample platform *)

Lemma sample_runs_through (delta speed latency : R) (ok go : bool) :
  runs_through (H := Sample.platform delta speed) (Sample.node latency ok go).
Proof.
  unfold runs_through, centerline_ok, settings_ok, library_ok.
  cbn [Sample.node Sample.platform m_pts_x m_pts_y m_poly_degree
       m_num_steps_poly m_debug polyfit Solve length].
  split; [|split].
  - split; [discriminate|]. split; [reflexivity|]. simpl. lia.
  - split; [lia|]. split; [simpl; lia|discriminate].
  - split.
    + intros xs ys. simpl. lia.
    + intros st c v. exists delta, speed, []. split; [reflexivity|].
      discriminate.
Qed.

Lemma C1_command_ranges_witness :
  exists s' out,
    tick (H := Sample.platform 0 1) (Sample.node 0 true true)
    = Some (s', out)
    /\ exists steer rpm markers,
         out = ServoPosition steer :: MotorSpeed rpm :: markers
         /\ 0 <= steer <= 1.
Proof.
  destruct (C1_command_ranges (H := Sample.platform 0 1)
              (Sample.node 0 true true) eq_refl)
    as [Htot Hpart].
  - cbn [CENTER_IN_DZIK Sample.platform]. lra.
  - cbn [WHEEL_RADIUS_IN_DZIK Sample.platform]. lra.
  - destruct (Htot (sample_runs_through 0 1 0 true true)) as (s' & out & E).
    exists s', out. split; [exact E|].
    destruct (Hpart s' out E) as (steer & rpm & markers & Eo & _ & Hs & _).
    exists steer, rpm, markers. split; assumption.
Defined.

Lemma C6_go_gating_witness :
  exists s' out,
    tick (H := Sample.platform 0 1) (Sample.node 0 true false)
    = Some (s', out)
    /\ commands out = [ServoPosition 0.5; MotorSpeed 0].
Proof.
  destruct (C6_go_gating (H := Sample.platform 0 1)
              (Sample.node 0 true false) eq_refl)
    as [Htot Hpart].
  destruct (Htot (sample_runs_through 0 1 0 true false)) as (s' & out & E).
  exists s', out. split; [exact E|].
  destruct (Hpart s' out E) as [Hdown _].
  destruct (Hdown eq_refl) as [Hc _]. exact Hc.
Defined.

Lemma C8_new_ref_v_on_tick_witness :
  exists s' out delta speed,
    tick (H := Sample.platform 0 1) (Sample.node 0 true true)
    = Some (s', out)
    /\ commands out
       = [ServoPosition
            (steer_cmd (H := Sample.platform 0 1)
               (Sample.node 0 true true) delta);
          MotorSpeed
            (rpm_cmd (H := Sample.platform 0 1)
               (Sample.node 0 true true) speed)].
Proof.
  destruct (C8_new_ref_v_on_tick (H := Sample.platform 0 1)
              (Sample.node 0 true true) eq_refl)
    as [Htot Hpart].
  destruct (Htot (sample_runs_through 0 1 0 true true)) as (s' & out & E).
  destruct (Hpart s' out E)
    as (cx & cy & f & c1 & delta & speed & _ & _ & _ & _ & Hrest).
  cbv zeta in Hrest. destruct Hrest as (_ & _ & Hc & _).
  exists s', out, delta, speed. split; [exact E|exact Hc].
Defined.

Lemma C2_skipped_round_is_silent_witness :
  tick (H := Sample.platform 0 1) (Sample.node 0 false true)
  = Some (Sample.node 0 false true, []).
Proof.
  apply (C2_skipped_round_is_silent (H := Sample.platform 0 1)
           (Sample.node 0 false true)).
  reflexivity.
Defined.

(** C2, as the specification has it, fails: with no input arrived the
    round ends without a single command, not with the pair
    [(CENTER, 0)]. *)
Lemma C2_no_safe_stop_on_skip :
  ready (Sample.node 0 false true) = false
  /\ exists s' out,
       tick (H := Sample.platform 0 1) (Sample.node 0 false true)
       = Some (s', out)
       /\ commands out = []
       /\ commands out <> [ServoPosition 0.5; MotorSpeed 0].
Proof.
  split; [reflexivity|].
  exists (Sample.node 0 false true), []. split; [reflexivity|].
  split; [reflexivity|discriminate].
Qed.

Ltac decide_Rlt :=
  match goal with
  | |- context [Rlt_dec ?a ?b] =>
      destruct (Rlt_dec a b) as [?|?];
      [try (exfalso; lra)|try (exfalso; lra)]
  end.

(** Evaluation of the loops on lists that are written out. *)
Ltac run_loops :=
  repeat (cbn -[IZR Q2R INR Rdiv Rminus Rlt_dec cos sin];
          unfold x_rot, y_rot;
          repeat match goal with
            | |- context [Pos.to_nat ?p] =>
                let n := eval compute in (Pos.to_nat p) in
                change (Pos.to_nat p) with n
            end;
          try decide_Rlt).

Lemma sample_solve (delta speed : R) (s : Node) (f : Fit) (vars : list R) :
  tick_solve (H := Sample.platform delta speed) s f = Some vars ->
  vars = [delta; speed].
Proof.
  unfold tick_solve.
  destruct (nth_error (f_coeffs f) 1); cbn [bind]; [|discriminate].
  cbn [Solve Sample.platform]. intros E. inversion E. reflexivity.
Qed.

Lemma sample_steer_straight (delta speed : R) :
  steer_in_dzik (H := Sample.platform delta speed) 0 = 0.5.
Proof.
  unfold steer_in_dzik. cbn [CENTER_IN_DZIK Sample.platform].
  repeat decide_Rlt. lra.
Qed.

(** C1, as the specification has it, fails: with the go flag up and a
    solver that answers the speed -1, the round publishes a negative
    rpm. *)
Lemma C1_negative_rpm :
  exists s' steer rpm,
    tick (H := Sample.platform 0 (-1)) (Sample.node 0 true true)
    = Some (s', [ServoPosition steer; MotorSpeed rpm])
    /\ rpm < 0.
Proof.
  set (P := Sample.platform 0 (-1)). set (s := Sample.node 0 true true).
  destruct (tick_total (H := P) s eq_refl
              (sample_runs_through 0 (-1) 0 true true)) as (s' & out & E).
  destruct (tick_published (H := P) s s' out eq_refl E)
    as (f & vars & delta & speed & markers & _ & Ev & _ & E1 & _ & Eo
        & _ & Hm).
  apply sample_solve in Ev. subst vars. cbn [nth_error] in E1.
  inversion E1. subst speed. rewrite (Hm eq_refl) in Eo.
  exists s', (steer_cmd (H := P) s delta), (rpm_cmd (H := P) s (-1)).
  split; [rewrite E, Eo; reflexivity|].
  unfold rpm_cmd. cbn [s Sample.node m_go_flag negb].
  apply (rpm_in_dzik_sign (H := P)).
  - cbn [P WHEEL_RADIUS_IN_DZIK Sample.platform]. lra.
  - lra.
Qed.

(** C3 on the code: the solver answers the steering angle 0 rad, the
    round stores the servo command 0.5 in [m_steer], and the next round
    projects the heading with 0.5 where the last steering angle is 0:
    -0.2 rad instead of 0 rad at 1 m/s and 0.1 s of latency. *)
Theorem C3_projection_uses_servo_command :
  exists s' out f vars,
    tick (H := Sample.platform 0 1) (Sample.node 0.1 true true)
    = Some (s', out)
    /\ tick_fit (H := Sample.platform 0 1) (Sample.node 0.1 true true)
       = Some f
    /\ tick_solve (H := Sample.platform 0 1) (Sample.node 0.1 true true) f
       = Some vars
    /\ nth_error vars 0 = Some 0
    /\ m_steer s' = 0.5
    /\ psi_lat (H := Sample.platform 0 1) s' = -0.2
    /\ m_psi s' - m_latency s' * (m_speed s' * 0 / 0.25) = 0.
Proof.
  set (P := Sample.platform 0 1). set (s := Sample.node 0.1 true true).
  destruct (tick_total (H := P) s eq_refl
              (sample_runs_through 0 1 0.1 true true)) as (s' & out & E).
  destruct (psi_lat_after_tick (H := P) s s' out eq_refl E)
    as (f & vars & delta & Ef & Ev & E0 & Hsteer & Hpsi).
  pose proof (sample_solve _ _ _ _ _ Ev) as Hv. subst vars.
  cbn [nth_error] in E0. inversion E0. subst delta.
  assert (Hcmd : steer_cmd (H := P) s 0 = 0.5).
  { unfold steer_cmd. cbn [s Sample.node m_go_flag negb].
    apply sample_steer_straight. }
  rewrite Hcmd in Hsteer, Hpsi.
  destruct (tick_published (H := P) s s' out eq_refl E)
    as (_ & _ & d2 & v2 & _ & _ & _ & _ & _ & Es & _).
  exists s', out, f, [0; 1].
  split; [exact E|]. split; [exact Ef|]. split; [exact Ev|].
  split; [reflexivity|]. split; [exact Hsteer|]. split.
  - rewrite Hpsi. cbn [s Sample.node m_psi m_latency m_speed Lf P
                       Sample.platform]. lra.
  - rewrite Es. cbn [set_actuators s Sample.node m_psi m_latency m_speed].
    lra.
Qed.

(** C4 on the code: the car is on the first of five points, the window
    starts one point back, and -1 converted to [size_t] is 2^64 - 1, a
    multiple of 5: the window is made of the points 0, 0, 1 instead of
    the points 4, 0, 1 of the cyclic window. *)
Theorem C4_window_below_zero :
  find_closest
    (m_pts_x (Sample.node 0 true true)) (m_pts_y (Sample.node 0 true true))
    (pos_x_lat (H := Sample.platform 0 1) (Sample.node 0 true true))
    (pos_y_lat (H := Sample.platform 0 1) (Sample.node 0 true true))
  = Some 0%Z
  /\ tick_window (H := Sample.platform 0 1) (Sample.node 0 true true)
     = Some ([0; 0; 1], [0; 0; 0])
  /\ Spec.window (H := Sample.platform 0 1)
       (m_pts_x (Sample.node 0 true true)) 0 3 = [0; 0; 1]
  /\ Spec.window (H := Sample.platform 0 1)
       (m_pts_y (Sample.node 0 true true)) 0 3 = [1; 0; 0]
  /\ window_idx (H := Sample.platform 0 1) (-1) 5 0 = Some 0%Z
  /\ ((-1) mod 5 = 4)%Z.
Proof.
  set (P := Sample.platform 0 1). set (s := Sample.node 0 true true).
  assert (Hx : pos_x_lat (H := P) s = 0).
  { unfold pos_x_lat. cbn [s Sample.node m_pos_x m_latency m_speed]. lra. }
  assert (Hy : pos_y_lat (H := P) s = 0).
  { unfold pos_y_lat. cbn [s Sample.node m_pos_y m_latency m_speed]. lra. }
  assert (Hc : find_closest (m_pts_x s) (m_pts_y s)
                 (pos_x_lat (H := P) s) (pos_y_lat (H := P) s) = Some 0%Z).
  { rewrite Hx, Hy. unfold find_closest.
    cbn [s Sample.node m_pts_x m_pts_y length].
    erewrite find_closest_from_take; [|reflexivity|reflexivity|lra].
    do 4 (erewrite find_closest_from_skip; [|reflexivity|reflexivity|lra]).
    reflexivity. }
  split; [exact Hc|]. split; [|repeat split].
  unfold tick_window. rewrite Hc. reflexivity.
Qed.

(** C5, as the specification has it, fails: of four points of degree 1
    with car-frame abscissas 0, 0.15, 0.16, 0.5 and a minimum spacing of
    0.1, the third is refused, and the two points made up in its place
    are 0.15 / 3 = 0.05 apart, below the minimum, at the indices 2 and 3
    above the degree. *)
Lemma C5_tail_spacing_too_small :
  exists xv yv fraction,
    car_frame (H := Sample.platform 0 1)
      [0; 0.15; 0.16; 0.5] [0; 0; 0; 0] 0 0 0 1 1 4
    = Some (xv, yv, fraction)
    /\ fraction = 0.75
    /\ nth 2 xv 0 - nth 1 xv 0 = 0.05
    /\ nth 3 xv 0 - nth 2 xv 0 = 0.05
    /\ ~ Spec.x_spacing_ok (H := Sample.platform 0 1) 1 xv.
Proof.
  unfold car_frame, x_rot, y_rot.
  run_loops.
  do 3 eexists. split; [reflexivity|].
  split; [cbn [INR]; lra|].
  split; [cbn [nth INR]; lra|].
  split; [cbn [nth INR]; lra|].
  intros Hs. destruct (Hs 2%nat) as [Hc|Hc].
  - simpl. lia.
  - cbn [nth Nat.sub X_DELTA_MIN_VALUE Sample.platform INR] in Hc.
    lra.
  - lia.
Qed.

Lemma C5_x_spacing_until_break_witness :
  exists b xv yv fraction,
    car_frame (H := Sample.platform 0 1)
      [0; 0.15; 0.16; 0.5] [0; 0; 0; 0] 0 0 0 1 1 4
    = Some (xv, yv, fraction)
    /\ (b <= 4)%nat /\ length xv = 4%nat.
Proof.
  destruct (C5_x_spacing_until_break (H := Sample.platform 0 1)
              [0; 0.15; 0.16; 0.5] [0; 0; 0; 0] 0 0 0 1 1 4)
    as (b & xv & yv & fr & E & Hb & Hl & _).
  - lia.
  - simpl. lia.
  - reflexivity.
  - reflexivity.
  - exists b, xv, yv, fr. split; [exact E|]. split; assumption.
Defined.

Lemma C10_empty_centerline_witness :
  m_pts_OK (centerline_cb [] (Sample.node 0 true true)) = true
  /\ tick_window (H := Sample.platform 0 1)
       (centerline_cb [] (Sample.node 0 true true)) = None
  /\ tick (H := Sample.platform 0 1)
       (centerline_cb [] (Sample.node 0 true true)) = None.
Proof.
  destruct (C10_empty_centerline (H := Sample.platform 0 1)
              [] (Sample.node 0 true true))
    as (Hflag & Hwin & _ & Htick).
  - simpl. lia.
  - simpl. lia.
  - split; [exact Hflag|]. split.
    + apply Hwin. reflexivity.
    + apply Htick; reflexivity.
Defined.

(** ** Start-up *)

Section MainFacts.

Variable atoi : string -> Z.
Variable atof : string -> R.

Ltac by_arity argv :=
  destruct argv as [|a0 [|a1 [|a2 [|a3 [|a4 [|a5 [|a6 [|a7 [|a8 [|a9 [|a10 [|a11 [|a12 [|a13 [|a14 [|a15 argv]]]]]]]]]]]]]]]].

Lemma main_wrong_count (argv : list string) :
  length argv <> num_expected_args -> main atoi atof argv = Exit 1.
Proof.
  unfold num_expected_args. intros Hlen. by_arity argv;
    try (simpl in Hlen; exfalso; apply Hlen; reflexivity);
    unfold main;
    match goal with
    | |- (if ?b then _ else _) = _ => destruct b; reflexivity
    end.
Qed.

Lemma main_exit_code (argv : list string) (c : Z) :
  main atoi atof argv = Exit c -> c = 1%Z.
Proof.
  destruct (Nat.eq_dec (length argv) num_expected_args) as [Hlen|Hlen].
  - unfold num_expected_args in Hlen. by_arity argv; try discriminate Hlen.
    unfold main.
    repeat match goal with
           | |- context [if ?b then _ else _] => destruct b
           end; intros E; inversion E; reflexivity.
  - rewrite (main_wrong_count argv Hlen). intros E. inversion E. reflexivity.
Qed.

Lemma main_checks (argv : list string) :
  length argv = num_expected_args ->
  (main atoi atof argv = Exit 1 <->
   1 < atof (nth 4 argv EmptyString)
   \/ atof (nth 4 argv EmptyString) < 0
   \/ (nth 14 argv EmptyString <> "true"%string
       /\ nth 14 argv EmptyString <> "false"%string)).
Proof.
  unfold num_expected_args. intros Hlen.
  by_arity argv; try discriminate Hlen. clear Hlen.
  unfold main. cbn [nth].
  destruct (Rlt_dec 1 (atof a4)) as [Hhi|Hhi]; [tauto|].
  destruct (Rlt_dec (atof a4) 0) as [Hlo|Hlo]; [tauto|].
  destruct (String.eqb_spec a14 "true") as [Ht|Ht].
  { split; [discriminate|]. intros [?|[?|[? _]]]; contradiction. }
  destruct (String.eqb_spec a14 "false") as [Hf|Hf].
  { split; [discriminate|]. intros [?|[?|[_ ?]]]; contradiction. }
  split; [|reflexivity]. intros _. right. right. split; assumption.
Qed.

(** C7. Start-up ends with exit code 1 exactly when the number of
    arguments is not fifteen, or [ref_v_alpha] is above one or below zero,
    or [debug] is neither [true] nor [false]; it ends with no other exit
    code, and the other settings are taken as parsed, whatever their
    values. *)
Theorem C7_startup_exit (argv : list string) :
  (main atoi atof argv = Exit 1 <->
   length argv <> 15%nat
   \/ 1 < atof (nth 4 argv EmptyString)
   \/ atof (nth 4 argv EmptyString) < 0
   \/ (nth 14 argv EmptyString <> "true"%string
       /\ nth 14 argv EmptyString <> "false"%string))
  /\ (forall c, main atoi atof argv = Exit c -> c = 1%Z)
  /\ (forall p, main atoi atof argv = Run p ->
       steps_ahead p = atoi (nth 1 argv EmptyString)
       /\ dt p = atof (nth 2 argv EmptyString)
       /\ ref_v p = atof (nth 3 argv EmptyString)
       /\ ref_v_alpha p = atof (nth 4 argv EmptyString)
       /\ latency p = atof (nth 5 argv EmptyString)
       /\ cte_coeff p = atof (nth 6 argv EmptyString)
       /\ epsi_coeff p = atof (nth 7 argv EmptyString)
       /\ speed_coeff p = atof (nth 8 argv EmptyString)
       /\ steer_coeff p = atof (nth 9 argv EmptyString)
       /\ consec_steer_coeff p = atof (nth 10 argv EmptyString)
       /\ consec_speed_coeff p = atof (nth 11 argv EmptyString)
       /\ poly_degree p = atoi (nth 12 argv EmptyString)
       /\ num_steps_poly p = atoi (nth 13 argv EmptyString)).
Proof.
  split; [|split].
  - destruct (Nat.eq_dec (length argv) num_expected_args) as [Hlen|Hlen].
    + rewrite (main_checks argv Hlen). unfold num_expected_args in Hlen.
      split; [tauto|]. intros [Hne|Hc]; [contradiction|exact Hc].
    + split; [intros _; left; exact Hlen|].
      intros _. apply main_wrong_count. exact Hlen.
  - apply main_exit_code.
  - intros p.
    destruct (Nat.eq_dec (length argv) num_expected_args) as [Hlen|Hlen].
    + unfold num_expected_args in Hlen.
      by_arity argv; try discriminate Hlen. clear Hlen.
      unfold main. cbn [nth].
      repeat match goal with
             | |- context [if ?b then _ else _] => destruct b
             end; intros E; inversion E; subst p; cbn;
        repeat split; reflexivity.
    + rewrite (main_wrong_count argv Hlen). discriminate.
Qed.

End MainFacts.

(** C7, as the specification has it, fails: fifteen arguments with
    [steps_ahead = 0], [dt = -1], [ref_v = 0], negative latency and cost
    coefficients and [poly_degree = num_steps_poly = 0] start the node. *)
Lemma C7_invalid_config_starts :
  exists p,
    main Sample.atoi Sample.atof Sample.argv = Run p
    /\ steps_ahead p = 0%Z /\ dt p = -1 /\ ref_v p = 0 /\ latency p = -1
    /\ poly_degree p = 0%Z /\ num_steps_poly p = 0%Z
    /\ ~ Spec.config_ok p.
Proof.
  assert (Hhalf : Sample.atof "0.5" = 0.5).
  { unfold Sample.atof.
    change (Sample.decimal "0.5") with (false, 5%Z, 1%nat).
    cbv iota beta zeta.
    change (10 ^ Z.of_nat 1)%Z with 10%Z. lra. }
  assert (Hneg : Sample.atof "-1" = -1).
  { unfold Sample.atof.
    change (Sample.decimal "-1") with (true, 1%Z, 0%nat).
    cbv iota beta zeta.
    change (10 ^ Z.of_nat 0)%Z with 1%Z. lra. }
  assert (Hzero : Sample.atof "0" = 0).
  { unfold Sample.atof.
    change (Sample.decimal "0") with (false, 0%Z, 0%nat).
    cbv iota beta zeta.
    change (10 ^ Z.of_nat 0)%Z with 1%Z. lra. }
  eexists. split.
  - unfold main, Sample.argv. rewrite Hhalf.
    destruct (Rlt_dec 1 0.5) as [Hc|_]; [lra|].
    destruct (Rlt_dec 0.5 0) as [Hc|_]; [lra|].
    cbn [String.eqb Ascii.eqb Bool.eqb]. reflexivity.
  - cbn [steps_ahead dt ref_v latency poly_degree num_steps_poly].
    rewrite Hneg, Hzero.
    repeat split; try reflexivity.
    unfold Spec.config_ok. cbn [steps_ahead].
    intros [Hsteps _]. vm_compute in Hsteps. apply Hsteps. reflexivity.
Qed.

(** * Further properties of the node *)

(** ** Notions used in the statements *)

(** The squared distance of the [k]-th point to a position, as
    [find_closest] computes it. *)
Definition dist2 (pts_x pts_y : list R) (pos_x pos_y : R) (k : nat) : R :=
  (nth k pts_x 0 - pos_x) * (nth k pts_x 0 - pos_x)
  + (nth k pts_y 0 - pos_y) * (nth k pts_y 0 - pos_y).

Definition is_centerline (e : Event) : bool :=
  match e with EvCenterline _ => true | _ => false end.

Definition is_odom (e : Event) : bool :=
  match e with EvOdom _ => true | _ => false end.

Definition is_pose (e : Event) : bool :=
  match e with EvPose _ => true | _ => false end.

(** The go flag after a list of signal codes, from the flag [b] before. *)
Definition go_after (codes : list Z) (b : bool) : bool :=
  fold_left (fun flag code =>
               if (code =? 0)%Z then false
               else if (code =? 2309)%Z then true
               else flag) codes b.

Definition signal_codes (pending : list Event) : list Z :=
  flat_map (fun e => match e with EvSignalGo d => [d] | _ => [] end) pending.

(** What [get_marker] makes of a car-frame point. *)
Definition to_map_frame (x_p y_p sn cs : R) (xy : R * R) : Point :=
  mkPoint (fst xy * cs - snd xy * sn + x_p) (fst xy * sn + snd xy * cs + y_p).

(** The settings of a node, which no callback and no round writes. *)
Definition settings (s : Node) : R * R * R * nat * nat * bool :=
  (m_latency s, m_ref_v s, m_ref_v_alpha s,
   m_poly_degree s, m_num_steps_poly s, m_debug s).

(** ** [find_closest] *)

Section Nearest.

Variables pts_x pts_y : list R.
Variables pos_x pos_y : R.

Hypothesis same_length : length pts_x = length pts_y.
Hypothesis fits_int : (Z.of_nat (length pts_x) < 2 ^ 31)%Z.

Let d := dist2 pts_x pts_y pos_x pos_y.

(** What the scan knows after the points before [i]. *)
Let scanned (i : nat) (c : Z) (dc : R) : Prop :=
  (c = (-1)%Z /\ dc = 1e19 /\ forall j, (j < i)%nat -> ~ d j < 1e19)
  \/ ((0 <= c < Z.of_nat i)%Z /\ dc = d (Z.to_nat c) /\ dc < 1e19
      /\ (forall j, (j < i)%nat -> dc <= d j)
      /\ (forall j, (j < Z.to_nat c)%nat -> dc < d j)).

Lemma find_closest_from_scanned (fuel : nat) :
  forall (i : nat) (c : Z) (dc : R),
    (i + fuel = length pts_x)%nat -> scanned i c dc ->
    exists r dr,
      find_closest_from pts_x pts_y pos_x pos_y i fuel c dc = Some r
      /\ scanned (length pts_x) r dr.
Proof.
  induction fuel as [|fuel IH]; intros i c dc Hi Hs.
  - exists c, dc. split; [reflexivity|].
    replace (length pts_x) with i by lia. exact Hs.
  - cbn [find_closest_from].
    rewrite (nth_error_nth' pts_x 0) by lia.
    rewrite (nth_error_nth' pts_y 0) by lia.
    cbn [bind]. fold (dist2 pts_x pts_y pos_x pos_y i). fold (d i).
    destruct (Rlt_dec (d i) dc) as [Hlt|Hge].
    + apply IH; [lia|]. rewrite to_int_small by lia.
      right. rewrite Nat2Z.id.
      split; [lia|]. split; [reflexivity|].
      destruct Hs as [(Hc & Hdc & Hall)|(Hc & Hdc & Hthr & Hmin & Hfirst)].
      * subst dc. split; [exact Hlt|]. split.
        -- intros j Hj. destruct (Nat.eq_dec j i) as [->|Hne]; [lra|].
           assert (~ d j < 1e19) by (apply Hall; lia). lra.
        -- intros j Hj. assert (~ d j < 1e19) by (apply Hall; lia). lra.
      * split; [lra|]. split.
        -- intros j Hj. destruct (Nat.eq_dec j i) as [->|Hne]; [lra|].
           assert (dc <= d j) by (apply Hmin; lia). lra.
        -- intros j Hj. assert (dc <= d j) by (apply Hmin; lia). lra.
    + apply IH; [lia|].
      destruct Hs as [(Hc & Hdc & Hall)|(Hc & Hdc & Hthr & Hmin & Hfirst)].
      * left. split; [exact Hc|]. split; [exact Hdc|].
        intros j Hj. destruct (Nat.eq_dec j i) as [->|Hne].
        -- subst dc. exact Hge.
        -- apply Hall. lia.
      * right. split; [lia|]. split; [exact Hdc|]. split; [exact Hthr|].
        split; [|exact Hfirst].
        intros j Hj. destruct (Nat.eq_dec j i) as [->|Hne]; [lra|].
        apply Hmin. lia.
Qed.

End Nearest.

(** X1. [find_closest] answers -1 exactly when no point is closer than
    the initial bound (squared distance below 1e19), which includes the
    empty list; otherwise it answers the index of a point at the least
    squared distance, and the lowest such index. *)
Theorem find_closest_nearest (pts_x pts_y : list R) (pos_x pos_y : R) :
  length pts_x = length pts_y ->
  (Z.of_nat (length pts_x) < 2 ^ 31)%Z ->
  exists r,
    find_closest pts_x pts_y pos_x pos_y = Some r
    /\ ((r = (-1)%Z
         /\ forall j, (j < length pts_x)%nat ->
              ~ dist2 pts_x pts_y pos_x pos_y j < 1e19)
        \/ ((0 <= r < Z.of_nat (length pts_x))%Z
            /\ dist2 pts_x pts_y pos_x pos_y (Z.to_nat r) < 1e19
            /\ (forall j, (j < length pts_x)%nat ->
                  dist2 pts_x pts_y pos_x pos_y (Z.to_nat r)
                  <= dist2 pts_x pts_y pos_x pos_y j)
            /\ (forall j, (j < Z.to_nat r)%nat ->
                  dist2 pts_x pts_y pos_x pos_y (Z.to_nat r)
                  < dist2 pts_x pts_y pos_x pos_y j))).
Proof.
  intros Hlen Hint. unfold find_closest.
  destruct (find_closest_from_scanned pts_x pts_y pos_x pos_y Hlen Hint
              (length pts_x) 0%nat (-1)%Z 1e19) as (r & dr & E & Hs).
  - lia.
  - left. split; [reflexivity|]. split; [reflexivity|]. intros j Hj. lia.
  - exists r. split; [exact E|].
    destruct Hs as [(Hc & _ & Hall)|(Hc & Hdc & Hthr & Hmin & Hfirst)].
    + left. split; assumption.
    + right. subst dr. repeat split; try assumption; lia.
Qed.

Lemma find_closest_nearest_witness :
  exists r,
    find_closest [0; 1; 2; 1; 0] [0; 0; 1; 2; 1] 0 0 = Some r.
Proof.
  destruct (find_closest_nearest [0; 1; 2; 1; 0] [0; 0; 1; 2; 1] 0 0)
    as (r & E & _).
  - reflexivity.
  - simpl. lia.
  - exists r. exact E.
Defined.

(** ** The window and the car frame loop *)

Section WindowPoints.

Context `{MPC_h}.

Lemma nth_map_seq (f : nat -> R) (n k : nat) :
  (k < n)%nat -> nth k (map f (seq 0 n)) 0 = f k.
Proof.
  intros Hk. transitivity (nth k (map f (seq 0 n)) (f 0%nat)).
  - apply nth_indep. rewrite length_map, length_seq. exact Hk.
  - rewrite (map_nth f). rewrite seq_nth by exact Hk. reflexivity.
Qed.

(** X2. Whatever the start index, negative ones included, the window
    loop returns [num_steps_poly] abscissas and as many ordinates, and
    the [k]-th pair is a point of the centre line: both coordinates are
    read at one and the same index below its length. *)
Theorem closest_pts_are_centerline_points (pts_x pts_y : list R)
    (closest_idx : Z) (num_steps_poly : nat) :
  pts_x <> [] -> length pts_x = length pts_y ->
  (Z.of_nat (length pts_x) < 2 ^ 31)%Z ->
  exists cx cy,
    closest_pts pts_x pts_y closest_idx num_steps_poly = Some (cx, cy)
    /\ length cx = num_steps_poly /\ length cy = num_steps_poly
    /\ forall k, (k < num_steps_poly)%nat ->
         exists j, (j < length pts_x)%nat
                   /\ nth k cx 0 = nth j pts_x 0
                   /\ nth k cy 0 = nth j pts_y 0.
Proof.
  intros Hne Hlen Hint. unfold closest_pts.
  rewrite closest_pts_from_value by assumption.
  eexists. eexists. split; [reflexivity|].
  rewrite !length_map, !length_seq.
  split; [reflexivity|]. split; [reflexivity|].
  intros k Hk.
  exists (Z.to_nat (window_pos closest_idx k mod Z.of_nat (length pts_x))).
  assert (Hpos : (0 < length pts_x)%nat).
  { destruct pts_x; [contradiction|simpl; lia]. }
  pose proof (Z.mod_pos_bound (window_pos closest_idx k)
                (Z.of_nat (length pts_x))) as Hb.
  split; [lia|].
  rewrite !nth_map_seq by exact Hk. split; reflexivity.
Qed.

Section Nominal.

Variables closest_pts_x closest_pts_y : list R.
Variables x_p y_p sn cs : R.
Variables poly_degree num_steps_poly : nat.

Hypothesis num_size_t : (Z.of_nat num_steps_poly < 2 ^ 64)%Z.
Hypothesis length_x : length closest_pts_x = num_steps_poly.
Hypothesis length_y : length closest_pts_y = num_steps_poly.

Let xf (k : nat) : R :=
  x_rot x_p y_p sn cs (nth k closest_pts_x 0) (nth k closest_pts_y 0).
Let yf (k : nat) : R :=
  y_rot x_p y_p sn cs (nth k closest_pts_x 0) (nth k closest_pts_y 0).

Hypothesis spaced :
  forall i, (poly_degree < i < num_steps_poly)%nat ->
    ~ xf i - xf (i - 1) < X_DELTA_MIN_VALUE.

Lemma car_frame_from_nominal (fuel : nat) :
  forall i,
    (i + fuel = num_steps_poly)%nat ->
    car_frame_from closest_pts_x closest_pts_y x_p y_p sn cs
      poly_degree num_steps_poly i fuel
      (map xf (seq 0 i)) (map yf (seq 0 i)) 1
    = Some (map xf (seq 0 num_steps_poly),
            map yf (seq 0 num_steps_poly), 1).
Proof.
  induction fuel as [|fuel IH]; intros i Hi.
  - replace num_steps_poly with i by lia. reflexivity.
  - cbn [car_frame_from].
    rewrite (nth_error_nth' closest_pts_x 0) by lia.
    rewrite (nth_error_nth' closest_pts_y 0) by lia.
    cbn [bind]. fold (xf i). fold (yf i).
    assert (Hnext :
      car_frame_from closest_pts_x closest_pts_y x_p y_p sn cs
        poly_degree num_steps_poly (S i) fuel
        (map xf (seq 0 i) ++ [xf i]) (map yf (seq 0 i) ++ [yf i]) 1
      = Some (map xf (seq 0 num_steps_poly),
              map yf (seq 0 num_steps_poly), 1)).
    { rewrite <- (IH (S i)) by lia.
      rewrite seq_S, !map_app. reflexivity. }
    destruct (Nat.ltb_spec poly_degree i) as [Hdeg|Hdeg]; [|exact Hnext].
    change (Z.of_nat i - 1)%Z with (Z.of_nat i - Z.of_nat 1)%Z.
    rewrite vec_at_back by (rewrite ?length_map, ?length_seq; lia).
    cbn [bind]. rewrite nth_map_seq by lia.
    destruct (Rlt_dec (xf i - xf (i - 1)) X_DELTA_MIN_VALUE) as [Hlow|_].
    + exfalso. apply (spaced i); [lia|exact Hlow].
    + exact Hnext.
Qed.

End Nominal.

(** X3. When every point above the degree lies at least
    [X_DELTA_MIN_VALUE] further along x than the one before it, the loop
    accepts all points: it returns each window point in the car frame,
    in order, and leaves [fraction_steps_OK] at 1. *)
Theorem car_frame_nominal (closest_pts_x closest_pts_y : list R)
    (x_p y_p sn cs : R) (poly_degree num_steps_poly : nat) :
  (Z.of_nat num_steps_poly < 2 ^ 64)%Z ->
  length closest_pts_x = num_steps_poly ->
  length closest_pts_y = num_steps_poly ->
  (forall i, (poly_degree < i < num_steps_poly)%nat ->
     ~ x_rot x_p y_p sn cs (nth i closest_pts_x 0) (nth i closest_pts_y 0)
       - x_rot x_p y_p sn cs (nth (i - 1) closest_pts_x 0)
           (nth (i - 1) closest_pts_y 0)
       < X_DELTA_MIN_VALUE) ->
  car_frame closest_pts_x closest_pts_y x_p y_p sn cs
    poly_degree num_steps_poly
  = Some
      (map (fun k => x_rot x_p y_p sn cs
                       (nth k closest_pts_x 0) (nth k closest_pts_y 0))
           (seq 0 num_steps_poly),
       map (fun k => y_rot x_p y_p sn cs
                       (nth k closest_pts_x 0) (nth k closest_pts_y 0))
           (seq 0 num_steps_poly),
       1).
Proof.
  intros Hn Hx Hy Hsp. unfold car_frame.
  apply (car_frame_from_nominal closest_pts_x closest_pts_y x_p y_p sn cs
           poly_degree num_steps_poly Hn Hx Hy Hsp num_steps_poly 0%nat).
  reflexivity.
Qed.

(** The fraction is 1 or [(b + 1) / num_steps_poly] for a round [b]
    below [num_steps_poly]. *)
Lemma car_frame_fraction_range (closest_pts_x closest_pts_y : list R)
    (x_p y_p sn cs : R) (poly_degree num_steps_poly : nat)
    (xv yv : list R) (fraction : R) :
  (1 <= poly_degree)%nat ->
  (Z.of_nat num_steps_poly < 2 ^ 64)%Z ->
  length closest_pts_x = num_steps_poly ->
  length closest_pts_y = num_steps_poly ->
  car_frame closest_pts_x closest_pts_y x_p y_p sn cs
    poly_degree num_steps_poly = Some (xv, yv, fraction) ->
  0 < fraction <= 1.
Proof.
  intros Hd Hn Hx Hy E. unfold car_frame in E.
  destruct (car_frame_from_outcome closest_pts_x closest_pts_y x_p y_p sn cs
              poly_degree num_steps_poly Hd Hn Hx Hy
              num_steps_poly 0%nat [] [])
    as (b & xv' & yv' & fr & E' & Hb & _ & _ & _ & _ & _ & Hbrk & Hfull).
  - lia.
  - reflexivity.
  - reflexivity.
  - intros k Hk. lia.
  - intros k Hk. lia.
  - rewrite E in E'. inversion E'. subst xv' yv' fr.
    destruct (Nat.eq_dec b num_steps_poly) as [Heq|Hne].
    + rewrite (Hfull Heq). lra.
    + destruct Hbrk as (_ & _ & Hfr); [lia|]. rewrite Hfr.
      assert (Hnum : 0 < INR num_steps_poly) by (apply lt_0_INR; lia).
      assert (Hb1 : 0 < INR (b + 1)) by (apply lt_0_INR; lia).
      assert (Hle : INR (b + 1) <= INR num_steps_poly)
        by (apply le_INR; lia).
      split.
      * apply Rdiv_lt_0_compat; lra.
      * apply (Rmult_le_reg_r (INR num_steps_poly)); [exact Hnum|].
        unfold Rdiv. rewrite Rmult_assoc, Rinv_l by lra. lra.
Qed.

(** X4. In a round whose fit succeeds, with [ref_v_alpha] in [0, 1] and a
    positive [ref_v], the reference velocity handed to the solver is
    positive and at most [ref_v]. *)
Theorem tick_ref_v_range (s : Node) (f : Fit) :
  centerline_ok s ->
  (1 <= m_poly_degree s)%nat ->
  (Z.of_nat (m_num_steps_poly s) < 2 ^ 64)%Z ->
  0 <= m_ref_v_alpha s <= 1 ->
  0 < m_ref_v s ->
  tick_fit s = Some f ->
  0 < f_fraction_steps_OK f <= 1
  /\ 0 < new_ref_v s (f_fraction_steps_OK f) <= m_ref_v s.
Proof.
  intros Hc Hd Hn Ha Hv E.
  destruct (tick_window_total s Hc) as (cx & cy & Ew & Hcx & Hcy).
  unfold tick_fit in E. rewrite Ew in E. cbn [bind] in E.
  destruct (car_frame cx cy (pos_x_lat s) (pos_y_lat s) (sin (psi_lat s))
              (cos (psi_lat s)) (m_poly_degree s) (m_num_steps_poly s))
    as [[[xv yv] fr]|] eqn:Ec; cbn [bind] in E; [|discriminate].
  destruct (copy_n (m_num_steps_poly s) xv); cbn [bind] in E;
    [|discriminate].
  destruct (copy_n (m_num_steps_poly s) yv); cbn [bind] in E;
    [|discriminate].
  destruct (m_poly_degree s <? _)%nat; [|discriminate].
  inversion E as [Ef]. cbn [f_fraction_steps_OK].
  pose proof (car_frame_fraction_range _ _ _ _ _ _ _ _ _ _ _
                Hd Hn Hcx Hcy Ec) as Hfr.
  split; [exact Hfr|]. unfold new_ref_v.
  assert (Hp1 : 0 <= (1 - m_ref_v_alpha s) * (fr * m_ref_v s)).
  { apply Rmult_le_pos; [lra|]. apply Rmult_le_pos; lra. }
  assert (Hp2 : 0 <= (1 - m_ref_v_alpha s) * ((1 - fr) * m_ref_v s)).
  { apply Rmult_le_pos; [lra|]. apply Rmult_le_pos; lra. }
  assert (Hp3 : 0 <= m_ref_v_alpha s * m_ref_v s)
    by (apply Rmult_le_pos; lra).
  destruct (Req_dec (m_ref_v_alpha s) 0) as [Hz|Hnz].
  - rewrite Hz in *. assert (0 < fr * m_ref_v s)
      by (apply Rmult_lt_0_compat; lra). lra.
  - assert (0 < m_ref_v_alpha s * m_ref_v s)
      by (apply Rmult_lt_0_compat; lra). lra.
Qed.

End WindowPoints.

Lemma closest_pts_are_centerline_points_witness :
  exists cx cy,
    closest_pts (H := Sample.platform 0 1)
      [0; 1; 2; 1; 0] [0; 0; 1; 2; 1] (-1) 3 = Some (cx, cy)
    /\ length cx = 3%nat /\ length cy = 3%nat.
Proof.
  destruct (closest_pts_are_centerline_points (H := Sample.platform 0 1)
              [0; 1; 2; 1; 0] [0; 0; 1; 2; 1] (-1) 3)
    as (cx & cy & E & Hx & Hy & _).
  - discriminate.
  - reflexivity.
  - simpl. lia.
  - exists cx, cy. split; [exact E|]. split; assumption.
Defined.

Lemma car_frame_nominal_witness :
  exists xv yv,
    car_frame (H := Sample.platform 0 1)
      [0; 0.5; 1; 1.5] [0; 0; 0; 0] 0 0 0 1 1 4 = Some (xv, yv, 1).
Proof.
  eexists. eexists.
  apply (car_frame_nominal (H := Sample.platform 0 1)
           [0; 0.5; 1; 1.5] [0; 0; 0; 0] 0 0 0 1 1 4).
  - simpl. lia.
  - reflexivity.
  - reflexivity.
  - intros i Hi.
    assert (Hcases : i = 2%nat \/ i = 3%nat) by lia.
    cbn [X_DELTA_MIN_VALUE Sample.platform]. unfold x_rot.
    destruct Hcases as [-> | ->]; cbn [nth Nat.sub]; lra.
Defined.

Lemma tick_ref_v_range_witness :
  exists f,
    tick_fit (H := Sample.platform 0 1) (Sample.node 0 true true) = Some f
    /\ 0 < new_ref_v (Sample.node 0 true true) (f_fraction_steps_OK f) <= 2.
Proof.
  destruct (tick_fit_total (H := Sample.platform 0 1)
              (Sample.node 0 true true)
              (sample_runs_through 0 1 0 true true)) as (f & E & _).
  exists f. split; [exact E|].
  refine (proj2 (tick_ref_v_range (H := Sample.platform 0 1)
                   (Sample.node 0 true true) f _ _ _ _ _ E)).
  - exact (proj1 (sample_runs_through 0 1 0 true true)).
  - simpl. lia.
  - simpl. lia.
  - cbn [Sample.node m_ref_v_alpha]. lra.
  - cbn [Sample.node m_ref_v]. lra.
Defined.

(** ** Markers *)

Section Markers.

Context `{MPC_h}.

Lemma marker_points_length (x_p y_p sn cs : R) (ps : list Point) :
  forall vars,
    marker_points vars x_p y_p sn cs = Some ps ->
    length vars = (2 * length ps)%nat.
Proof.
  induction ps as [|p ps IH]; intros vars E.
  - destruct vars as [|x [|y rest]]; [reflexivity|discriminate|].
    cbn [marker_points] in E.
    destruct (marker_points rest x_p y_p sn cs); discriminate.
  - destruct vars as [|x [|y rest]]; try discriminate.
    cbn [marker_points] in E.
    destruct (marker_points rest x_p y_p sn cs) as [qs|] eqn:Er;
      cbn [bind] in E; [|discriminate].
    inversion E. subst qs. cbn [length]. rewrite (IH rest Er). lia.
Qed.

Lemma marker_points_odd (x_p y_p sn cs : R) (n : nat) :
  forall vars, length vars = (2 * n + 1)%nat ->
    marker_points vars x_p y_p sn cs = None.
Proof.
  induction n as [|n IH]; intros vars Hlen.
  - destruct vars as [|x [|y rest]]; try (simpl in Hlen; lia). reflexivity.
  - destruct vars as [|x [|y rest]]; try (simpl in Hlen; lia).
    cbn [marker_points]. rewrite (IH rest); [reflexivity|].
    simpl in Hlen. lia.
Qed.

(** X5. [get_marker] has a result exactly when it is given at least two
    values and an even number of them; the marker then has one point for
    every pair after the first two values. *)
Theorem get_marker_defined (vars : list R) (x_p y_p sn cs : R) :
  (get_marker vars x_p y_p sn cs = None
   <-> (length vars < 2)%nat \/ Nat.Odd (length vars))
  /\ (forall ps, get_marker vars x_p y_p sn cs = Some ps ->
        length vars = (2 + 2 * length ps)%nat).
Proof.
  split.
  - destruct vars as [|a [|b rest]].
    + split; [intros _; left; simpl; lia|reflexivity].
    + split; [intros _; left; simpl; lia|reflexivity].
    + cbn [get_marker length]. split.
      * intros E. right.
        destruct (Nat.Even_or_Odd (length rest)) as [[k Hk]|[k Hk]].
        -- destruct (marker_points_even x_p y_p sn cs k rest Hk) as (ps & E').
           rewrite E in E'. discriminate.
        -- exists (S k). lia.
      * intros [Hlt|[k Hk]]; [lia|].
        apply (marker_points_odd x_p y_p sn cs (k - 1)). lia.
  - intros ps E. destruct vars as [|a [|b rest]]; try discriminate.
    cbn [get_marker] in E. apply marker_points_length in E.
    cbn [length]. lia.
Qed.

Lemma marker_points_interleave_map (x_p y_p sn cs : R) (xs : list R) :
  forall ys, length xs = length ys ->
    marker_points (interleave xs ys) x_p y_p sn cs
    = Some (map (to_map_frame x_p y_p sn cs) (combine xs ys)).
Proof.
  induction xs as [|x xs IH]; intros [|y ys] Hlen; try discriminate;
    [reflexivity|].
  cbn [interleave marker_points combine map].
  rewrite IH by (simpl in Hlen; lia). reflexivity.
Qed.

(** X6. The marker of the closest waypoints shows every fit point but
    the first: the interleaved coordinates are handed to [get_marker],
    which skips two leading values, so the points shown are the second
    to the last, each taken back to the map frame. *)
Theorem closest_marker_omits_first (s : Node) (f : Fit) (vars : list R)
    (out : list Msg) :
  length (f_xvals f) = m_num_steps_poly s ->
  length (f_yvals f) = m_num_steps_poly s ->
  debug_markers s f vars = Some out ->
  exists next_pos poly,
    out = [NextPosMarker next_pos;
           ClosestMarker
             (map (to_map_frame (pos_x_lat s) (pos_y_lat s)
                     (sin (psi_lat s)) (cos (psi_lat s)))
                  (tl (combine (f_xvals f) (f_yvals f))));
           PolyMarker poly].
Proof.
  intros Hx Hy. unfold debug_markers.
  destruct (get_marker vars (pos_x_lat s) (pos_y_lat s)
              (sin (psi_lat s)) (cos (psi_lat s))) as [a|];
    cbn [bind]; [|discriminate].
  rewrite (copy_n_all _ _ Hx), (copy_n_all _ _ Hy). cbn [bind].
  assert (Hlen : length (f_xvals f) = length (f_yvals f)) by lia.
  destruct (f_xvals f) as [|x xs]; destruct (f_yvals f) as [|y ys];
    try discriminate Hlen.
  - cbn [interleave get_marker bind]. discriminate.
  - cbn [interleave get_marker combine tl].
    rewrite marker_points_interleave_map by (simpl in Hlen; lia).
    cbn [bind].
    match goal with
    | |- context [bind ?m _] => destruct m as [c|]
    end; cbn [bind]; [|discriminate].
    intros E. inversion E. exists a, c. reflexivity.
Qed.

Lemma poly_samples_unroll (coeffs : list R) (fuel k : nat) :
  (k <= 11)%nat -> (11 - k <= fuel)%nat ->
  poly_samples coeffs (INR k * 0.2) fuel
  = flat_map (fun j => [INR j * 0.2; polyeval coeffs (INR j * 0.2)])
      (seq k (11 - k)).
Proof.
  revert k. induction fuel as [|fuel IH]; intros k Hk Hfuel.
  - replace (11 - k)%nat with 0%nat by lia. reflexivity.
  - cbn [poly_samples].
    destruct (Nat.eq_dec k 11) as [->|Hne].
    + destruct (Rlt_dec (INR 11 * 0.2) 2.1) as [Hc|_]; [|reflexivity].
      exfalso. simpl in Hc. lra.
    + destruct (Rlt_dec (INR k * 0.2) 2.1) as [_|Hc].
      * replace (11 - k)%nat with (S (11 - S k)) by lia.
        cbn [seq flat_map app]. f_equal. f_equal.
        replace (INR k * 0.2 + 0.2) with (INR (S k) * 0.2)
          by (rewrite S_INR; lra).
        apply IH; lia.
      * exfalso. apply Hc.
        assert (INR k <= INR 10) by (apply le_INR; lia).
        simpl in *. lra.
Qed.

(** X7. The loop that samples the fitted polynomial for its marker ends
    by its own test after eleven rounds, at x = 0, 0.2, ..., 2.0: from
    eleven rounds on, the bound on the rounds does not matter. *)
Theorem poly_samples_eleven (coeffs : list R) (fuel : nat) :
  (11 <= fuel)%nat ->
  poly_samples coeffs 0 fuel
  = flat_map (fun j => [INR j * 0.2; polyeval coeffs (INR j * 0.2)])
      (seq 0 11)
  /\ length (poly_samples coeffs 0 fuel) = 22%nat.
Proof.
  intros Hfuel.
  assert (E : poly_samples coeffs 0 fuel
              = flat_map
                  (fun j => [INR j * 0.2; polyeval coeffs (INR j * 0.2)])
                  (seq 0 11)).
  { replace 0 with (INR 0 * 0.2) at 1 by (simpl; lra).
    apply (poly_samples_unroll coeffs fuel 0); lia. }
  split; [exact E|]. rewrite E. reflexivity.
Qed.

End Markers.

Lemma closest_marker_omits_first_witness :
  exists out next_pos poly,
    debug_markers (H := Sample.platform 0 1) (Sample.node 0 true true)
      (mkFit [0; 1; 2] [0; 0; 0] 1 [0; 0]) [0; 1] = Some out
    /\ out = [NextPosMarker next_pos;
              ClosestMarker
                (map (to_map_frame
                        (pos_x_lat (H := Sample.platform 0 1)
                           (Sample.node 0 true true))
                        (pos_y_lat (H := Sample.platform 0 1)
                           (Sample.node 0 true true))
                        (sin (psi_lat (H := Sample.platform 0 1)
                                (Sample.node 0 true true)))
                        (cos (psi_lat (H := Sample.platform 0 1)
                                (Sample.node 0 true true))))
                   [(1, 0); (2, 0)]);
              PolyMarker poly].
Proof.
  destruct (debug_markers_total (H := Sample.platform 0 1)
              (Sample.node 0 true true)
              (mkFit [0; 1; 2] [0; 0; 0] 1 [0; 0]) 0 1 [])
    as (a & b & c & E).
  - simpl. lia.
  - reflexivity.
  - reflexivity.
  - exists 0%nat. reflexivity.
  - destruct (closest_marker_omits_first (H := Sample.platform 0 1)
                (Sample.node 0 true true)
                (mkFit [0; 1; 2] [0; 0; 0] 1 [0; 0]) [0; 1] _
                eq_refl eq_refl E) as (np & pl & Eo).
    eexists. exists np, pl. split; [exact E|exact Eo].
Defined.

Lemma poly_samples_eleven_witness :
  length (poly_samples (H := Sample.platform 0 1) [1; 2] 0 12) = 22%nat.
Proof.
  apply (poly_samples_eleven (H := Sample.platform 0 1) [1; 2] 12). lia.
Defined.

(** ** The heading from the pose *)

Lemma cos_sign_cases (psi : R) :
  - PI < psi <= PI ->
  (0 < cos psi /\ - (PI / 2) < psi < PI / 2)
  \/ (cos psi = 0 /\ (psi = PI / 2 \/ psi = - (PI / 2)))
  \/ (cos psi < 0 /\ (PI / 2 < psi \/ psi < - (PI / 2))).
Proof.
  intros Hr. pose proof PI_RGT_0 as Hpi.
  destruct (Rtotal_order psi (PI / 2)) as [Hlt|[Heq|Hgt]].
  - destruct (Rtotal_order psi (- (PI / 2))) as [Hlt'|[Heq'|Hgt']].
    + right. right. split; [|right; exact Hlt'].
      rewrite <- cos_neg. apply cos_lt_0; lra.
    + right. left. split; [|right; exact Heq'].
      rewrite Heq', cos_neg. exact cos_PI2.
    + left. split; [apply cos_gt_0; lra|lra].
  - right. left. split; [rewrite Heq; exact cos_PI2|left; exact Heq].
  - right. right. split; [apply cos_lt_0; lra|left; exact Hgt].
Qed.

(** [atan2] gives back the angle of a point of the unit circle. *)
Lemma atan2_sin_cos (psi : R) :
  - PI < psi <= PI -> atan2 (sin psi) (cos psi) = psi.
Proof.
  intros Hr. pose proof PI_RGT_0 as Hpi. unfold atan2.
  destruct (cos_sign_cases psi Hr)
    as [(Hc & Hin)|[(Hc & Hpsi)|(Hc & Hout)]].
  - destruct (Rlt_dec 0 (cos psi)) as [_|Hn]; [|contradiction].
    fold (tan psi). apply atan_tan. exact Hin.
  - destruct (Rlt_dec 0 (cos psi)) as [Hp|_]; [lra|].
    destruct (Rlt_dec (cos psi) 0) as [Hp|_]; [lra|].
    destruct Hpsi as [-> | ->].
    + rewrite sin_PI2.
      destruct (Rlt_dec 0 1) as [_|Hn]; [reflexivity|lra].
    + rewrite sin_neg, sin_PI2.
      destruct (Rlt_dec 0 (- (1))) as [Hp|_]; [lra|].
      destruct (Rlt_dec (- (1)) 0) as [_|Hn]; [reflexivity|lra].
  - destruct (Rlt_dec 0 (cos psi)) as [Hp|_]; [lra|].
    destruct (Rlt_dec (cos psi) 0) as [_|Hn]; [|contradiction].
    destruct Hout as [Hhi|Hlo].
    + assert (Hs : 0 <= sin psi) by (apply sin_ge_0; lra).
      destruct (Rle_dec 0 (sin psi)) as [_|Hn]; [|contradiction].
      assert (Ht : sin psi / cos psi = tan (psi - PI)).
      { unfold tan.
        pose proof (neg_sin (psi - PI)) as E1.
        pose proof (neg_cos (psi - PI)) as E2.
        replace (psi - PI + PI) with psi in E1, E2 by ring.
        rewrite E1, E2. field.
        rewrite E2 in Hc. lra. }
      rewrite Ht, atan_tan by lra. ring.
    + assert (Hs : sin psi < 0) by (apply sin_lt_0_var; lra).
      destruct (Rle_dec 0 (sin psi)) as [Hp|_]; [lra|].
      assert (Ht : sin psi / cos psi = tan (psi + PI)).
      { unfold tan. rewrite neg_sin, neg_cos. field. lra. }
      rewrite Ht, atan_tan by lra. ring.
Qed.

Section Pose.

Context `{MPC_h}.

(** X8. For a pose whose orientation is the unit quaternion of a pure
    yaw [psi] in (-pi, pi], that is (0, 0, sin(psi/2), cos(psi/2)), the
    pose callback stores [psi] as the heading and the position as
    received, raises the two flags of the pose and touches nothing
    else. *)
Theorem pf_pose_odom_cb_yaw (psi x y v : R) (s : Node) :
  - PI < psi <= PI ->
  let data := mkOdom (mkPoint x y)
                (mkQuat 0 0 (sin (psi / 2)) (cos (psi / 2))) v in
  m_psi (pf_pose_odom_cb data s) = psi
  /\ m_pos_x (pf_pose_odom_cb data s) = x
  /\ m_pos_y (pf_pose_odom_cb data s) = y
  /\ m_pos_OK (pf_pose_odom_cb data s) = true
  /\ m_psi_OK (pf_pose_odom_cb data s) = true
  /\ m_speed (pf_pose_odom_cb data s) = m_speed s
  /\ m_steer (pf_pose_odom_cb data s) = m_steer s
  /\ m_go_flag (pf_pose_odom_cb data s) = m_go_flag s.
Proof.
  intros Hr data. split; [|repeat split; reflexivity].
  unfold pf_pose_odom_cb, data.
  cbn [m_psi pose_orientation qx qy qz qw].
  replace (2 * (cos (psi / 2) * sin (psi / 2) + 0 * 0)) with (sin psi).
  - replace (1 - 2 * (0 * 0 + sin (psi / 2) * sin (psi / 2)))
      with (cos psi).
    + apply atan2_sin_cos. exact Hr.
    + replace psi with (2 * (psi / 2)) at 1 by field.
      rewrite cos_2a_sin. ring.
  - replace psi with (2 * (psi / 2)) at 1 by field.
    rewrite sin_2a. ring.
Qed.

(** ** The servo command *)

(** X9. The mapping of the steering angle to the servo is
    [CENTER_IN_DZIK - delta] wherever that is in [0, 1], and it never
    increases with the angle: a larger angle gives a servo command that
    is smaller or the same. *)
Theorem steer_in_dzik_monotone (delta1 delta2 : R) :
  delta1 <= delta2 ->
  steer_in_dzik delta2 <= steer_in_dzik delta1
  /\ (0 <= CENTER_IN_DZIK - delta1 <= 1 ->
      steer_in_dzik delta1 = CENTER_IN_DZIK - delta1).
Proof.
  intros Hle. unfold steer_in_dzik.
  destruct (Rlt_dec (CENTER_IN_DZIK - delta1) 0);
    destruct (Rlt_dec 1 (CENTER_IN_DZIK - delta1));
    destruct (Rlt_dec (CENTER_IN_DZIK - delta2) 0);
    destruct (Rlt_dec 1 (CENTER_IN_DZIK - delta2));
    split; intros; lra.
Qed.

(** ** What a round writes *)

Lemma set_actuators_same (s : Node) :
  set_actuators (m_steer s) (m_rpm s) s = s.
Proof. destruct s. reflexivity. Qed.

(** X10. A round writes the two actuator members of the node and
    nothing else; when the inputs are ready, what it publishes first is
    the servo position and then the motor speed it has just stored,
    followed by three markers with [debug] on and by nothing more with
    [debug] off. *)
Theorem tick_writes_actuators_only (s s' : Node) (out : list Msg) :
  tick s = Some (s', out) ->
  s' = set_actuators (m_steer s') (m_rpm s') s
  /\ (ready s = true ->
      exists markers,
        out = ServoPosition (m_steer s') :: MotorSpeed (m_rpm s') :: markers
        /\ commands markers = []
        /\ length markers = if m_debug s then 3%nat else 0%nat).
Proof.
  intros E. destruct (ready s) eqn:Hr.
  - destruct (tick_published s s' out Hr E)
      as (f & vars & delta & speed & markers & _ & _ & _ & _ & Es & Eo
          & Hm & Hoff).
    split; [rewrite Es; reflexivity|]. intros _.
    exists markers. rewrite Es. cbn [set_actuators m_steer m_rpm].
    split; [exact Eo|]. split; [exact Hm|].
    destruct (m_debug s) eqn:Ed.
    + unfold tick in E. rewrite Hr, Ed in E.
      destruct (tick_fit s) as [f'|]; cbn [bind] in E; [|discriminate].
      destruct (tick_solve s f') as [vars'|]; cbn [bind] in E;
        [|discriminate].
      destruct (nth_error vars' 0); cbn [bind] in E; [|discriminate].
      destruct (nth_error vars' 1); cbn [bind] in E; [|discriminate].
      destruct (debug_markers s f' vars') as [ms|] eqn:Em;
        cbn [bind] in E; [|discriminate].
      inversion E as [[Es' Eo']]. rewrite Eo in Eo'.
      inversion Eo'. subst ms.
      unfold debug_markers in Em.
      repeat match type of Em with
             | context [bind ?m _] => destruct m; cbn [bind] in Em
             end; try discriminate.
      inversion Em. reflexivity.
    + rewrite (Hoff eq_refl). reflexivity.
  - rewrite (tick_not_ready s Hr) in E. inversion E. subst s'.
    split; [symmetry; apply set_actuators_same|discriminate].
Qed.

End Pose.

Lemma pf_pose_odom_cb_yaw_witness :
  m_psi (pf_pose_odom_cb
           (mkOdom (mkPoint 1 2) (mkQuat 0 0 (sin (0 / 2)) (cos (0 / 2))) 3)
           (Sample.node 0 false false)) = 0.
Proof.
  refine (proj1 (pf_pose_odom_cb_yaw 0 1 2 3 (Sample.node 0 false false) _)).
  pose proof PI_RGT_0. lra.
Defined.

Lemma steer_in_dzik_monotone_witness :
  steer_in_dzik (H := Sample.platform 0 1) 0.2
  <= steer_in_dzik (H := Sample.platform 0 1) 0.1.
Proof.
  refine (proj1 (steer_in_dzik_monotone (H := Sample.platform 0 1)
                   0.1 0.2 _)).
  lra.
Defined.

Lemma tick_writes_actuators_only_witness :
  exists s' out,
    tick (H := Sample.platform 0 1) (Sample.node 0 true true)
    = Some (s', out)
    /\ s' = set_actuators (m_steer s') (m_rpm s') (Sample.node 0 true true).
Proof.
  destruct (tick_total (H := Sample.platform 0 1) (Sample.node 0 true true)
              eq_refl (sample_runs_through 0 1 0 true true))
    as (s' & out & E).
  exists s', out. split; [exact E|].
  exact (proj1 (tick_writes_actuators_only (H := Sample.platform 0 1)
                  (Sample.node 0 true true) s' out E)).
Defined.

(** ** Inputs, flags and the loop *)

Section Inputs.

Context `{MPC_h}.

Lemma spinOnce_cons (e : Event) (pending : list Event) (s : Node) :
  spinOnce (e :: pending) s = spinOnce pending (dispatch s e).
Proof. reflexivity. Qed.

Lemma spinOnce_app (p q : list Event) (s : Node) :
  spinOnce (p ++ q) s = spinOnce q (spinOnce p s).
Proof. unfold spinOnce. apply fold_left_app. Qed.

Lemma flags_after_events (pending : list Event) :
  forall s,
    m_pts_OK (spinOnce pending s)
    = m_pts_OK s || existsb is_centerline pending
    /\ m_speed_OK (spinOnce pending s)
       = m_speed_OK s || existsb is_odom pending
    /\ m_pos_OK (spinOnce pending s)
       = m_pos_OK s || existsb is_pose pending
    /\ m_psi_OK (spinOnce pending s)
       = m_psi_OK s || existsb is_pose pending.
Proof.
  induction pending as [|e pending IH]; intros s.
  - cbn [spinOnce fold_left existsb]. rewrite !orb_false_r. tauto.
  - rewrite spinOnce_cons.
    destruct (IH (dispatch s e)) as (E1 & E2 & E3 & E4).
    rewrite E1, E2, E3, E4. cbn [existsb].
    destruct e as [d|d|d|d]; cbn [dispatch is_centerline is_odom is_pose];
      try (unfold signal_go_cb;
           destruct (d =? 0)%Z; [|destruct (d =? 2309)%Z]);
      cbn [centerline_cb odom_cb pf_pose_odom_cb set_go
           m_pts_OK m_speed_OK m_pos_OK m_psi_OK orb];
      rewrite ?orb_true_r, ?orb_false_r; tauto.
Qed.

Lemma ready_spinOnce (pending : list Event) (s : Node) :
  ready (spinOnce pending s)
  = (m_pts_OK s || existsb is_centerline pending)
    && (m_speed_OK s || existsb is_odom pending)
    && (m_pos_OK s || existsb is_pose pending)
    && (m_psi_OK s || existsb is_pose pending).
Proof.
  destruct (flags_after_events pending s) as (E1 & E2 & E3 & E4).
  unfold ready at 1. rewrite E1, E2, E3, E4. reflexivity.
Qed.

Lemma ready_monotone (pending : list Event) (s : Node) :
  ready s = true -> ready (spinOnce pending s) = true.
Proof.
  rewrite ready_spinOnce. unfold ready. intros Hr.
  apply andb_prop in Hr. destruct Hr as [Hr H4].
  apply andb_prop in Hr. destruct Hr as [Hr H3].
  apply andb_prop in Hr. destruct Hr as [H1 H2].
  rewrite H1, H2, H3, H4. reflexivity.
Qed.

(** X11. No callback lowers a readiness flag: after any batch of
    arrivals each flag is up if it was up before or its channel
    delivered (the pose raises two of them), so a node that was ready
    stays ready. From a fresh node, the loop is ready exactly when a
    centre line, an odometry message and a pose have arrived. *)
Theorem ready_after_events (pending : list Event) (s : Node) :
  ready (spinOnce pending s)
  = (m_pts_OK s || existsb is_centerline pending)
    && (m_speed_OK s || existsb is_odom pending)
    && (m_pos_OK s || existsb is_pose pending)
    && (m_psi_OK s || existsb is_pose pending)
  /\ (ready s = true -> ready (spinOnce pending s) = true)
  /\ (forall params u,
        ready (spinOnce pending (MPCControllerNode params u))
        = existsb is_centerline pending && existsb is_odom pending
          && existsb is_pose pending).
Proof.
  split; [apply ready_spinOnce|]. split; [apply ready_monotone|].
  intros params u. rewrite ready_spinOnce.
  cbn [MPCControllerNode m_pts_OK m_speed_OK m_pos_OK m_psi_OK orb].
  destruct (existsb is_centerline pending);
    destruct (existsb is_odom pending);
    destruct (existsb is_pose pending); reflexivity.
Qed.

(** X12. As long as the inputs are not complete after all the arrivals
    of some rounds, none of these rounds publishes anything, and the node
    at their end is the node at their start with the arrivals applied. *)
Theorem loop_silent_before_inputs (arrivals : list (list Event)) :
  forall s,
    ready (spinOnce (concat arrivals) s) = false ->
    loop arrivals s
    = Some (spinOnce (concat arrivals) s, map (fun _ => []) arrivals).
Proof.
  induction arrivals as [|pending later IH]; intros s Hr; [reflexivity|].
  cbn [concat] in Hr. rewrite spinOnce_app in Hr.
  assert (Hs : ready s = false).
  { destruct (ready s) eqn:E; [|reflexivity].
    rewrite (ready_monotone (concat later) _ (ready_monotone pending s E))
      in Hr.
    discriminate. }
  cbn [loop]. rewrite (tick_not_ready s Hs). cbn [bind].
  rewrite (IH _ Hr). cbn [bind concat map].
  rewrite spinOnce_app. reflexivity.
Qed.

(** X13. The go flag after a batch of arrivals depends on the signal
    codes alone, taken in order: 0 lowers it, 2309 raises it, any other
    code leaves it as it is, and the last of the codes 0 and 2309
    decides. *)
Theorem go_flag_after_events (pending : list Event) :
  forall s,
    m_go_flag (spinOnce pending s)
    = go_after (signal_codes pending) (m_go_flag s).
Proof.
  induction pending as [|e pending IH]; intros s; [reflexivity|].
  rewrite spinOnce_cons, IH.
  destruct e as [d|d|d|d]; cbn [dispatch signal_codes flat_map app];
    try reflexivity.
  unfold go_after at 2. cbn [fold_left]. fold (go_after (signal_codes pending)).
  rewrite signal_go_cb_flag. reflexivity.
Qed.

Lemma go_flag_stays_down (after : list Event) :
  forall s,
    (forall d, In (EvSignalGo d) after -> d <> 2309%Z) ->
    m_go_flag s = false -> m_go_flag (spinOnce after s) = false.
Proof.
  induction after as [|e after IH]; intros s Hno Hgo; [exact Hgo|].
  rewrite spinOnce_cons. apply IH.
  - intros d Hd. apply Hno. right. exact Hd.
  - destruct e as [d|d|d|d]; cbn [dispatch]; try exact Hgo.
    rewrite signal_go_cb_flag.
    destruct (Z.eqb_spec d 0) as [_|_]; [reflexivity|].
    destruct (Z.eqb_spec d 2309) as [E|_]; [|exact Hgo].
    exfalso. apply (Hno d); [left; reflexivity|exact E].
Qed.

(** X14. Emergency stop: when the code 0 has arrived and no code 2309
    after it, the next round, if the inputs are ready and it runs to its
    end, publishes the neutral servo position and zero motor speed and
    stores them, whatever the solver answered. *)
Theorem emergency_stop_next_round (before after : list Event)
    (s s' : Node) (out : list Msg) :
  (forall d, In (EvSignalGo d) after -> d <> 2309%Z) ->
  ready (spinOnce (before ++ EvSignalGo 0 :: after) s) = true ->
  tick (spinOnce (before ++ EvSignalGo 0 :: after) s) = Some (s', out) ->
  m_go_flag (spinOnce (before ++ EvSignalGo 0 :: after) s) = false
  /\ commands out = [ServoPosition CENTER_IN_DZIK; MotorSpeed 0]
  /\ m_steer s' = CENTER_IN_DZIK /\ m_rpm s' = 0.
Proof.
  intros Hno Hr E.
  set (n := spinOnce (before ++ EvSignalGo 0 :: after) s) in *.
  assert (Hgo : m_go_flag n = false).
  { unfold n. rewrite spinOnce_app, spinOnce_cons.
    apply go_flag_stays_down; [exact Hno|]. reflexivity. }
  split; [exact Hgo|].
  destruct (tick_published n s' out Hr E)
    as (f & vars & delta & speed & markers & _ & _ & _ & _ & Es & Eo
        & Hm & _).
  subst out s'. unfold commands in *. cbn [filter is_command].
  rewrite Hm. unfold steer_cmd, rpm_cmd. rewrite Hgo.
  cbn [negb set_actuators m_steer m_rpm]. repeat split; reflexivity.
Qed.

Lemma tick_set_actuators (s s' : Node) (out : list Msg) :
  tick s = Some (s', out) -> s' = set_actuators (m_steer s') (m_rpm s') s.
Proof.
  intros E. destruct (ready s) eqn:Hr.
  - destruct (tick_published s s' out Hr E)
      as (f & vars & delta & speed & markers & _ & _ & _ & _ & Es & _).
    rewrite Es. reflexivity.
  - rewrite (tick_not_ready s Hr) in E. inversion E. subst s'.
    destruct s. reflexivity.
Qed.

Lemma dispatch_keeps (s : Node) (e : Event) :
  settings (dispatch s e) = settings s
  /\ (length (m_pts_x s) = length (m_pts_y s) ->
      length (m_pts_x (dispatch s e)) = length (m_pts_y (dispatch s e)))
  /\ m_steer (dispatch s e) = m_steer s
  /\ m_rpm (dispatch s e) = m_rpm s.
Proof.
  destruct e as [d|d|d|d]; cbn [dispatch];
    try (unfold signal_go_cb;
         destruct (d =? 0)%Z; [|destruct (d =? 2309)%Z]);
    unfold settings;
    cbn [centerline_cb odom_cb pf_pose_odom_cb set_go m_latency m_ref_v
         m_ref_v_alpha m_poly_degree m_num_steps_poly m_debug
         m_pts_x m_pts_y m_steer m_rpm];
    rewrite ?length_map; auto.
Qed.

Lemma spinOnce_keeps (pending : list Event) :
  forall s,
    settings (spinOnce pending s) = settings s
    /\ (length (m_pts_x s) = length (m_pts_y s) ->
        length (m_pts_x (spinOnce pending s))
        = length (m_pts_y (spinOnce pending s)))
    /\ m_steer (spinOnce pending s) = m_steer s
    /\ m_rpm (spinOnce pending s) = m_rpm s.
Proof.
  induction pending as [|e pending IH]; intros s; [auto|].
  rewrite spinOnce_cons.
  destruct (IH (dispatch s e)) as (E1 & E2 & E3 & E4).
  destruct (dispatch_keeps s e) as (D1 & D2 & D3 & D4).
  rewrite E1, E3, E4. auto.
Qed.

(** X16. The loop never writes the settings of the node (latency,
    reference velocity and its smoothing, degree, number of points,
    debug), it keeps the abscissas and the ordinates of the centre line
    equally many, and the actuator members change only in rounds, never
    in callbacks. *)
Theorem loop_keeps_settings (arrivals : list (list Event)) :
  forall s s' outs,
    loop arrivals s = Some (s', outs) ->
    settings s' = settings s
    /\ (length (m_pts_x s) = length (m_pts_y s) ->
        length (m_pts_x s') = length (m_pts_y s'))
    /\ (forall pending,
          m_steer (spinOnce pending s') = m_steer s'
          /\ m_rpm (spinOnce pending s') = m_rpm s').
Proof.
  induction arrivals as [|pending later IH]; intros s s' outs E.
  - inversion E. subst s'. split; [reflexivity|]. split; [auto|].
    intros p. destruct (spinOnce_keeps p s) as (_ & _ & E3 & E4). auto.
  - cbn [loop] in E.
    destruct (tick s) as [[s1 out]|] eqn:Et; cbn [bind] in E;
      [|discriminate].
    destruct (loop later (spinOnce pending s1)) as [[s2 o2]|] eqn:El;
      cbn [bind] in E; [|discriminate].
    inversion E. subst s2.
    destruct (IH _ _ _ El) as (I1 & I2 & I3).
    destruct (spinOnce_keeps pending s1) as (P1 & P2 & _).
    pose proof (tick_set_actuators s s1 out Et) as Es.
    assert (T1 : settings s1 = settings s) by (rewrite Es; reflexivity).
    assert (Tx : m_pts_x s1 = m_pts_x s) by (rewrite Es; reflexivity).
    assert (Ty : m_pts_y s1 = m_pts_y s) by (rewrite Es; reflexivity).
    split; [rewrite I1, P1, T1; reflexivity|]. split; [|exact I3].
    intros Hlen. apply I2. apply P2. rewrite Tx, Ty. exact Hlen.
Qed.

End Inputs.

(** *** Evaluations *)

Lemma loop_silent_before_inputs_witness :
  loop (H := Sample.platform 0 1)
    [[EvSignalGo 2309]; [EvCenterline [mkPoint 0 0]]]
    (Sample.node 0 false false)
  = Some (spinOnce [EvSignalGo 2309; EvCenterline [mkPoint 0 0]]
            (Sample.node 0 false false),
          [[]; []]).
Proof.
  apply (loop_silent_before_inputs (H := Sample.platform 0 1)
           [[EvSignalGo 2309]; [EvCenterline [mkPoint 0 0]]]
           (Sample.node 0 false false)).
  reflexivity.
Defined.

Lemma emergency_stop_next_round_witness :
  exists s' out,
    tick (H := Sample.platform 0 1)
      (spinOnce [EvSignalGo 0] (Sample.node 0 true true)) = Some (s', out)
    /\ commands out = [ServoPosition 0.5; MotorSpeed 0].
Proof.
  destruct (tick_total (H := Sample.platform 0 1)
              (spinOnce [EvSignalGo 0] (Sample.node 0 true true))
              eq_refl (sample_runs_through 0 1 0 true false))
    as (s' & out & E).
  exists s', out. split; [exact E|].
  refine (proj1 (proj2 (emergency_stop_next_round
                          (H := Sample.platform 0 1) [] []
                          (Sample.node 0 true true) s' out _ eq_refl E))).
  intros d [].
Defined.

Lemma loop_keeps_settings_witness :
  exists s' outs,
    loop (H := Sample.platform 0 1)
      [[EvSignalGo 2309; EvCenterline [mkPoint 0 0]]]
      (Sample.node 0 false false) = Some (s', outs)
    /\ settings s' = settings (Sample.node 0 false false).
Proof.
  eexists. eexists. split; [reflexivity|].
  refine (proj1 (loop_keeps_settings (H := Sample.platform 0 1)
                   [[EvSignalGo 2309; EvCenterline [mkPoint 0 0]]]
                   (Sample.node 0 false false) _ _ eq_refl)).
Defined.

(** ** Two edges of a round *)

Section Edges.

Context `{MPC_h}.

(** X18. With degree 0 the spacing test starts at the second point, and
    a second point that is refused makes the loop read [xvals_vec[i-2]]
    with [i = 1]: the index wraps to 2^64 - 1, out of the vector, and the
    loop has no defined result. *)
Theorem car_frame_degree_zero_undefined (closest_pts_x closest_pts_y : list R)
    (x_p y_p sn cs : R) (num_steps_poly : nat) :
  (2 <= num_steps_poly)%nat ->
  length closest_pts_x = num_steps_poly ->
  length closest_pts_y = num_steps_poly ->
  x_rot x_p y_p sn cs (nth 1 closest_pts_x 0) (nth 1 closest_pts_y 0)
  - x_rot x_p y_p sn cs (nth 0 closest_pts_x 0) (nth 0 closest_pts_y 0)
  < X_DELTA_MIN_VALUE ->
  car_frame closest_pts_x closest_pts_y x_p y_p sn cs 0 num_steps_poly
  = None.
Proof.
  intros Hn Hx Hy Hlow. unfold car_frame.
  destruct num_steps_poly as [|[|n]]; try lia.
  destruct closest_pts_x as [|X0 [|X1 cx]]; try discriminate Hx.
  destruct closest_pts_y as [|Y0 [|Y1 cy]]; try discriminate Hy.
  cbn [nth] in Hlow.
  cbn [car_frame_from nth_error bind Nat.ltb Nat.leb app].
  change (vec_at [x_rot x_p y_p sn cs X0 Y0] (to_size_t (Z.of_nat 1 - 1)))
    with (Some (x_rot x_p y_p sn cs X0 Y0)).
  cbn [bind].
  destruct (Rlt_dec _ X_DELTA_MIN_VALUE) as [_|Hc]; [|contradiction].
  reflexivity.
Qed.

(** X19. Apart from the start below zero, the window is the cyclic one:
    when the nearest index is at least [NUM_STEPS_BACK] and no sum
    reaches 2^64, the round fits the points at the indices
    [(idx - NUM_STEPS_BACK + i * STEP_POLY) mod N], also past the end of
    the centre line. *)
Theorem tick_window_cyclic_from_back (s : Node) (idx : Z) :
  centerline_ok s ->
  find_closest (m_pts_x s) (m_pts_y s) (pos_x_lat s) (pos_y_lat s)
  = Some idx ->
  (0 <= NUM_STEPS_BACK <= idx)%Z -> (0 <= STEP_POLY)%Z ->
  (idx - NUM_STEPS_BACK + Z.of_nat (m_num_steps_poly s) * STEP_POLY
   < 2 ^ 64)%Z ->
  tick_window s
  = Some (Spec.window (m_pts_x s) idx (m_num_steps_poly s),
          Spec.window (m_pts_y s) idx (m_num_steps_poly s))
  /\ forall i, (i < m_num_steps_poly s)%nat ->
       window_idx (to_int (idx - NUM_STEPS_BACK)) (length (m_pts_x s)) i
       = Some ((idx - NUM_STEPS_BACK + Z.of_nat i * STEP_POLY)
               mod Z.of_nat (length (m_pts_x s)))%Z.
Proof.
  intros Hok E Hback Hstep Hsum.
  split; [apply tick_window_cyclic; assumption|].
  intros i Hi. destruct Hok as (Hne & Hlen & Hint).
  assert (Hb : (-1 <= idx < Z.of_nat (length (m_pts_x s)))%Z).
  { destruct (find_closest_bounds (m_pts_x s) (m_pts_y s)
                (pos_x_lat s) (pos_y_lat s) Hlen Hint) as (r & Er & Hr).
    rewrite E in Er. inversion Er. subst r. exact Hr. }
  assert (Hpos : (0 < length (m_pts_x s))%nat).
  { destruct (m_pts_x s); [contradiction|simpl; lia]. }
  rewrite window_idx_value by assumption.
  rewrite to_int_small by lia.
  rewrite window_pos_plain; [reflexivity|lia|lia|nia].
Qed.

End Edges.

Lemma car_frame_degree_zero_undefined_witness :
  car_frame (H := Sample.platform 0 1) [0; 0.05; 1] [0; 0; 0] 0 0 0 1 0 3
  = None.
Proof.
  apply (car_frame_degree_zero_undefined (H := Sample.platform 0 1)
           [0; 0.05; 1] [0; 0; 0] 0 0 0 1 3).
  - lia.
  - reflexivity.
  - reflexivity.
  - cbn [nth X_DELTA_MIN_VALUE Sample.platform]. unfold x_rot. lra.
Defined.

(** The sample node with the car on the second point of the track. *)
Definition node_on_second_point : Node :=
  pf_pose_odom_cb (mkOdom (mkPoint 1 0) (mkQuat 0 0 0 1) 1)
    (Sample.node 0 true true).

Lemma node_on_second_point_closest :
  find_closest (m_pts_x node_on_second_point) (m_pts_y node_on_second_point)
    (pos_x_lat (H := Sample.platform 0 1) node_on_second_point)
    (pos_y_lat (H := Sample.platform 0 1) node_on_second_point)
  = Some 1%Z.
Proof.
  assert (Hx : pos_x_lat (H := Sample.platform 0 1) node_on_second_point = 1).
  { unfold pos_x_lat, node_on_second_point.
    cbn [pf_pose_odom_cb Sample.node m_pos_x m_latency m_speed
         pose_position px]. lra. }
  assert (Hy : pos_y_lat (H := Sample.platform 0 1) node_on_second_point = 0).
  { unfold pos_y_lat, node_on_second_point.
    cbn [pf_pose_odom_cb Sample.node m_pos_y m_latency m_speed
         pose_position py]. lra. }
  rewrite Hx, Hy. unfold find_closest, node_on_second_point.
  cbn [pf_pose_odom_cb Sample.node m_pts_x m_pts_y length].
  do 2 (erewrite find_closest_from_take; [|reflexivity|reflexivity|lra]).
  do 3 (erewrite find_closest_from_skip; [|reflexivity|reflexivity|lra]).
  reflexivity.
Qed.

Lemma tick_window_cyclic_from_back_witness :
  tick_window (H := Sample.platform 0 1) node_on_second_point
  = Some (Spec.window (H := Sample.platform 0 1)
            (m_pts_x node_on_second_point) 1 3,
          Spec.window (H := Sample.platform 0 1)
            (m_pts_y node_on_second_point) 1 3).
Proof.
  refine (proj1 (tick_window_cyclic_from_back (H := Sample.platform 0 1)
                   node_on_second_point 1 _ node_on_second_point_closest
                   _ _ _)).
  - split; [discriminate|]. split; [reflexivity|]. simpl. lia.
  - cbn [NUM_STEPS_BACK Sample.platform]. lia.
  - cbn [STEP_POLY Sample.platform]. lia.
  - cbn. lia.
Defined.
